(** * PMSM torque-speed envelope: the numeric core of [src/utils/motorPhysics.ts]

    A shallow embedding of [calculateTheoreticalMaxSpeed] and
    [calculateMotorCharacteristics] and the properties the specification
    states about them.

    Numbers.  The TypeScript [number] is modelled by the real numbers of the
    Standard Library: [Math.sqrt], [Math.sin], [Math.cos], [Math.PI],
    [Math.abs], [Math.max], [Math.min] are [sqrt], [sin], [cos], [PI], [Rabs],
    [Rmax], [Rmin]; [Math.ceil] is [Math_ceil] below.  Rounding, overflow,
    infinities and NaN are outside this model; a quotient is only meaningful
    where its denominator is not zero, and the theorems that depend on the
    value of a quotient carry that as a hypothesis.

    Loops.  A [for] loop over an integer counter with a literal bound runs by
    structural recursion on that bound.  A [for] loop that steps a [number]
    towards a limit takes fuel, an upper bound on the number of loop tests, and
    answers [None] when the fuel runs out; the totality lemmas show that the
    fuel fixed in the definitions is never exhausted. *)

From Stdlib Require Import Reals Lra Lia List Bool ZArith Sorted.
Import ListNotations.
Open Scope R_scope.

(* ================================================================= *)
(** ** Numeric primitives *)

(** [Math.floor] and [Math.ceil]. *)
Definition Math_floor (x : R) : R := IZR (Int_part x).
Definition Math_ceil (x : R) : R := - Math_floor (- x).

(** The comparison operators, as booleans. *)
Definition js_le (x y : R) : bool := if Rle_dec x y then true else false.
Definition js_lt (x y : R) : bool := if Rlt_dec x y then true else false.
Definition js_gt (x y : R) : bool := if Rgt_dec x y then true else false.
Definition js_ge (x y : R) : bool := if Rge_dec x y then true else false.

Infix "<=?" := js_le (at level 70, no associativity) : R_scope.
Infix "<?" := js_lt (at level 70, no associativity) : R_scope.
Infix ">?" := js_gt (at level 70, no associativity) : R_scope.
Infix ">=?" := js_ge (at level 70, no associativity) : R_scope.

(** Sequencing of computations that may run out of fuel. *)
Notation "x <- c ;; k" := (match c with Some x => k | None => None end)
  (at level 61, c at next level, right associativity).

(** [for (let b = lo; b <= hi; b += step) s = body(b, s)]. *)
Fixpoint for_loop {S : Type} (fuel : nat) (b hi step : R)
    (body : R -> S -> S) (s : S) : option S :=
  match fuel with
  | O => None
  | Datatypes.S fuel' =>
      if b <=? hi then for_loop fuel' (b + step) hi step body (body b s)
      else Some s
  end.

(** [for (let i = 0; i < n; i++) s = body(s)]. *)
Fixpoint repeat_loop {S : Type} (n : nat) (body : S -> S) (s : S) : S :=
  match n with
  | O => s
  | Datatypes.S n' => repeat_loop n' body (body s)
  end.

(** The same, for a body that may run out of fuel. *)
Fixpoint repeat_loop_opt {S : Type} (n : nat) (body : S -> option S) (s : S)
    : option S :=
  match n with
  | O => Some s
  | Datatypes.S n' => s' <- body s ;; repeat_loop_opt n' body s'
  end.

(* ================================================================= *)
(** ** Data model ([types.ts]) *)

Inductive MotorType := IPMSM | SPMSM.

(** ['MTPA' | 'Id=0']. *)
Inductive ControlStrategy := MTPA | IdZero.

Record MotorParams := {
  motorType : MotorType;
  controlStrategy : ControlStrategy;
  enableFluxWeakening : bool;
  rs : R;
  ld : R;
  lq : R;
  psif : R;
  p : R;
  vdc : R;
  voltageUtilization : R;
  imax : R;
  maxSpeed : R
}.

Record SimulationPoint := {
  speedRPM : R;
  torque : R;
  power : R;
  voltageIndex : R;
  currentAngle : R;
  id : R;
  iq : R
}.

Record SimulationResult := {
  points : list SimulationPoint;
  maxTorque : R;
  baseSpeed : R;
  maxPower : R
}.

(** [DEFAULT_PARAMS] of [constants.ts]. *)
Definition DEFAULT_PARAMS : MotorParams := {|
  motorType := IPMSM;
  controlStrategy := MTPA;
  enableFluxWeakening := false;
  rs := 0.0595;
  ld := 0.0000235;
  lq := 0.000035;
  psif := 0.00159;
  p := 15;
  vdc := 18.5;
  voltageUtilization := 0.9;
  imax := 13;
  maxSpeed := 5000
|}.

(** Record update, [{ ...params, controlStrategy, enableFluxWeakening }]. *)
Definition with_mode (cs : ControlStrategy) (fw : bool) (params : MotorParams)
    : MotorParams := {|
  motorType := motorType params;
  controlStrategy := cs;
  enableFluxWeakening := fw;
  rs := rs params;
  ld := ld params;
  lq := lq params;
  psif := psif params;
  p := p params;
  vdc := vdc params;
  voltageUtilization := voltageUtilization params;
  imax := imax params;
  maxSpeed := maxSpeed params
|}.

(* ================================================================= *)
(** ** [calculateTheoreticalMaxSpeed] *)

(** Phase voltage peak limit, [(vdc / Math.sqrt(3)) * voltageUtilization]. *)
Definition vLim (params : MotorParams) : R :=
  (vdc params / sqrt 3) * voltageUtilization params.

Definition calculateTheoreticalMaxSpeed (params : MotorParams) : R :=
  if negb (enableFluxWeakening params) then
    let maxRadS := vLim params / psif params in
    let maxRPM := (maxRadS * 60) / (2 * PI * p params) in
    Math_ceil (maxRPM / 100) * 100
  else
    let ich := psif params / ld params in
    if imax params >=? ich then 20000
    else
      let residualFlux := Rabs (psif params - ld params * imax params) in
      if residualFlux <? 1e-9 then 20000
      else
        let maxRadS := vLim params / residualFlux in
        let maxRPM := (maxRadS * 60) / (2 * PI * p params) in
        Math_ceil (maxRPM / 100) * 100.

(* ================================================================= *)
(** ** [calculateMotorCharacteristics] *)

(** Simulation resolution. *)
Definition stepRPM (params : MotorParams) : R :=
  Rmax 10 (Math_ceil (maxSpeed params / 100)).

(** Helper [getTorque]. *)
Definition getTorque (params : MotorParams) (i_mag rad : R) : R :=
  let i_d := - i_mag * sin rad in
  let i_q := i_mag * cos rad in
  1.5 * p params * (psif params * i_q + (ld params - lq params) * i_d * i_q).

(** *** 1. Constant torque region operating point *)

Record BasePoint := {
  betaStart : R;
  maxT_static : R
}.

Definition mtpaScan (params : MotorParams) (b : R) (s : BasePoint) : BasePoint :=
  let rad := (b * PI) / 180 in
  let t := getTorque params (imax params) rad in
  if t >? maxT_static s then {| betaStart := rad; maxT_static := t |} else s.

(** Loop tests of [for (let b = 0; b <= 90; b += 0.5)]: 181 passes and the
    exit. *)
Definition mtpaScanFuel : nat := 182.

Definition baseOperatingPoint (params : MotorParams) : option BasePoint :=
  match controlStrategy params with
  | IdZero =>
      Some {| betaStart := 0; maxT_static := getTorque params (imax params) 0 |}
  | MTPA =>
      for_loop mtpaScanFuel 0 90 0.5 (mtpaScan params)
        {| betaStart := 0; maxT_static := 0 |}
  end.

(** *** 2. Curve points *)

(** Electrical speed of a mechanical speed in RPM. *)
Definition omegaOf (params : MotorParams) (rpm : R) : R :=
  (rpm * 2 * PI / 60) * p params.

(** Helper [getVoltageMag], closed over [omega] in the source. *)
Definition getVoltageMag (params : MotorParams) (omega cId cIq : R) : R :=
  let vd := rs params * cId - omega * lq params * cIq in
  let vq := rs params * cIq + omega * (ld params * cId + psif params) in
  sqrt (vd * vd + vq * vq).

(** [currentId], [currentIq], [currentBeta]. *)
Record OperatingPoint := {
  currentId : R;
  currentIq : R;
  currentBeta : R
}.

(** Region 2 with flux weakening: binary search for the angle. *)
Record AngleSearch := {
  low : R;
  high : R;
  optimalB : R;
  foundSolution : bool
}.

Definition angleSearchStep (params : MotorParams) (omega : R) (s : AngleSearch)
    : AngleSearch :=
  let mid := (low s + high s) / 2 in
  let testId := - imax params * sin mid in
  let testIq := imax params * cos mid in
  if getVoltageMag params omega testId testIq <=? vLim params then
    {| low := low s; high := mid; optimalB := mid; foundSolution := true |}
  else
    {| low := mid; high := high s; optimalB := optimalB s;
       foundSolution := foundSolution s |}.

Definition angleSearchInit (beta : R) : AngleSearch :=
  {| low := beta; high := PI / 2; optimalB := PI / 2; foundSolution := false |}.

Definition fluxWeakening (params : MotorParams) (omega beta : R)
    : OperatingPoint :=
  let s := repeat_loop 20 (angleSearchStep params omega) (angleSearchInit beta) in
  if foundSolution s then
    {| currentId := - imax params * sin (optimalB s);
       currentIq := imax params * cos (optimalB s);
       currentBeta := optimalB s |}
  else
    {| currentId := 0; currentIq := 0; currentBeta := beta |}.

(** The midpoints the angle search tests, in order. *)
Fixpoint angleSearchMids (n : nat) (params : MotorParams) (omega : R)
    (s : AngleSearch) : list R :=
  match n with
  | O => []
  | Datatypes.S n' =>
      ((low s + high s) / 2)
        :: angleSearchMids n' params omega (angleSearchStep params omega s)
  end.

(** Region 2 without flux weakening: binary search for the magnitude. *)
Record AngleScan := {
  maxT_local : R;
  tBeta : R
}.

Definition localScan (params : MotorParams) (midI b : R) (s : AngleScan)
    : AngleScan :=
  let rad := (b * PI) / 180 in
  let t := 1.5 * p params
           * (psif params * (midI * cos rad)
              + (ld params - lq params) * (- midI * sin rad) * (midI * cos rad)) in
  if t >? maxT_local s then {| maxT_local := t; tBeta := rad |} else s.

(** Loop tests of the coarse scan (19 passes) and of the fine scan (9 passes). *)
Definition coarseScanFuel : nat := 20.
Definition fineScanFuel : nat := 10.

Definition trialAngle (params : MotorParams) (midI : R) : option R :=
  match controlStrategy params with
  | IdZero => Some 0
  | MTPA =>
      coarse <- for_loop coarseScanFuel 0 90 5 (localScan params midI)
                  {| maxT_local := -1e9; tBeta := 0 |} ;;
      let bestDeg := tBeta coarse * 180 / PI in
      fine <- for_loop fineScanFuel (bestDeg - 4) (bestDeg + 4) 1
                (localScan params midI) coarse ;;
      Some (tBeta fine)
  end.

Record MagnitudeSearch := {
  lowI : R;
  highI : R;
  validId : R;
  validIq : R;
  validBeta : R
}.

Definition magnitudeSearchStep (params : MotorParams) (omega : R)
    (s : MagnitudeSearch) : option MagnitudeSearch :=
  let midI := (lowI s + highI s) / 2 in
  tBeta <- trialAngle params midI ;;
  let tId := - midI * sin tBeta in
  let tIq := midI * cos tBeta in
  if getVoltageMag params omega tId tIq <=? vLim params then
    Some {| lowI := midI; highI := highI s;
            validId := tId; validIq := tIq; validBeta := tBeta |}
  else
    Some {| lowI := lowI s; highI := midI;
            validId := validId s; validIq := validIq s;
            validBeta := validBeta s |}.

Definition naturalCharacteristic (params : MotorParams) (omega : R)
    : option OperatingPoint :=
  s <- repeat_loop_opt 15 (magnitudeSearchStep params omega)
         {| lowI := 0; highI := imax params;
            validId := 0; validIq := 0; validBeta := 0 |} ;;
  Some {| currentId := validId s; currentIq := validIq s;
          currentBeta := validBeta s |}.

(** The locals of the sweep: the result under construction and the flag. *)
Record SweepState := {
  acc : SimulationResult;
  baseSpeedFound : bool
}.

Definition recordBaseSpeed (params : MotorParams) (rpm : R) (st : SweepState)
    : SweepState :=
  if negb (baseSpeedFound st) then
    {| acc := {| points := points (acc st);
                 maxTorque := maxTorque (acc st);
                 baseSpeed := Rmax 0 (rpm - stepRPM params);
                 maxPower := maxPower (acc st) |};
       baseSpeedFound := true |}
  else st.

(** The point pushed for a speed and its operating point. *)
Definition simulationPoint (params : MotorParams) (rpm : R) (op : OperatingPoint)
    : SimulationPoint :=
  let omega := omegaOf params rpm in
  let torque := 1.5 * p params
                * (psif params * currentIq op
                   + (ld params - lq params) * currentId op * currentIq op) in
  let powerW := torque * (rpm * 2 * PI / 60) in
  let powerkW := powerW / 1000 in
  let vMag_final := getVoltageMag params omega (currentId op) (currentIq op) in
  let safeTorque := Rmax 0 torque in
  let safePower := Rmax 0 powerkW in
  {| speedRPM := rpm;
     torque := safeTorque;
     power := safePower;
     voltageIndex := Rmin 1 (vMag_final / vLim params);
     currentAngle := (currentBeta op * 180) / PI;
     id := currentId op;
     iq := currentIq op |}.

Definition pushPoint (pt : SimulationPoint) (st : SweepState) : SweepState :=
  {| acc := {| points := points (acc st) ++ [pt];
               maxTorque := maxTorque (acc st);
               baseSpeed := baseSpeed (acc st);
               maxPower := if power pt >? maxPower (acc st) then power pt
                           else maxPower (acc st) |};
     baseSpeedFound := baseSpeedFound st |}.

(** How one pass of the sweep ends: the loop goes on, or [break]. *)
Inductive Flow (S : Type) : Type :=
  | Continue (s : S)
  | Break (s : S).
Arguments Continue {S} s.
Arguments Break {S} s.

(** The body of the sweep at speed [rpm]. *)
Definition sweepBody (params : MotorParams) (bp : BasePoint) (rpm : R)
    (st : SweepState) : option (Flow SweepState) :=
  let omega := omegaOf params rpm in
  let id_base := - imax params * sin (betaStart bp) in
  let iq_base := imax params * cos (betaStart bp) in
  let vMag_base := getVoltageMag params omega id_base iq_base in
  r <- (if vMag_base <=? vLim params then
          Some ({| currentId := id_base; currentIq := iq_base;
                   currentBeta := betaStart bp |}, st)
        else
          let st1 := recordBaseSpeed params rpm st in
          if enableFluxWeakening params then
            Some (fluxWeakening params omega (betaStart bp), st1)
          else
            op <- naturalCharacteristic params omega ;; Some (op, st1)) ;;
  let pt := simulationPoint params rpm (fst r) in
  let st2 := pushPoint pt (snd r) in
  if (rpm >? 100) && (torque pt <? 0.01) then Some (Break st2)
  else Some (Continue st2).

(** [for (let rpm = 0; rpm <= maxSpeed; rpm += stepRPM)]. *)
Fixpoint sweep (fuel : nat) (params : MotorParams) (bp : BasePoint) (rpm : R)
    (st : SweepState) : option SweepState :=
  match fuel with
  | O => None
  | Datatypes.S fuel' =>
      if rpm <=? maxSpeed params then
        f <- sweepBody params bp rpm st ;;
        match f with
        | Continue st' => sweep fuel' params bp (rpm + stepRPM params) st'
        | Break st' => Some st'
        end
      else Some st
  end.

(** Loop tests of the sweep: the step is at least a hundredth of the range, so
    at most 101 passes and the exit. *)
Definition sweepFuel : nat := 102.

Definition calculateMotorCharacteristics (params : MotorParams)
    : option SimulationResult :=
  bp <- baseOperatingPoint params ;;
  st <- sweep sweepFuel params bp 0
          {| acc := {| points := []; maxTorque := maxT_static bp;
                       baseSpeed := 0; maxPower := 0 |};
             baseSpeedFound := false |} ;;
  Some (acc st).

(* ================================================================= *)
(** ** Vocabulary of the properties *)

(** The angle, in radians, of pass [k] of the MTPA scan ([b = k * 0.5]). *)
Definition scanAngle (k : nat) : R := (INR k * 0.5 * PI) / 180.

(** The speed of pass [k] of the sweep. *)
Definition sweptSpeed (params : MotorParams) (k : nat) : R :=
  INR k * stepRPM params.

(** The voltage magnitude of the base operating point at speed [rpm]. *)
Definition vMagBase (params : MotorParams) (bp : BasePoint) (rpm : R) : R :=
  getVoltageMag params (omegaOf params rpm)
    (- imax params * sin (betaStart bp)) (imax params * cos (betaStart bp)).

(** The base operating point satisfies the voltage limit at speed [rpm]. *)
Definition baseFeasible (params : MotorParams) (bp : BasePoint) (rpm : R)
    : Prop :=
  vMagBase params bp rpm <= vLim params.

(** The operating point the body of the sweep settles on at speed [rpm]. *)
Definition operatingPointAt (params : MotorParams) (bp : BasePoint) (rpm : R)
    : option OperatingPoint :=
  if vMagBase params bp rpm <=? vLim params then
    Some {| currentId := - imax params * sin (betaStart bp);
            currentIq := imax params * cos (betaStart bp);
            currentBeta := betaStart bp |}
  else if enableFluxWeakening params then
    Some (fluxWeakening params (omegaOf params rpm) (betaStart bp))
  else naturalCharacteristic params (omegaOf params rpm).

(** [pt] is the point the body of the sweep pushes at its own speed. *)
Definition producedAt (params : MotorParams) (bp : BasePoint)
    (pt : SimulationPoint) : Prop :=
  exists op,
    operatingPointAt params bp (speedRPM pt) = Some op
    /\ pt = simulationPoint params (speedRPM pt) op.

(** The early termination rule fires on [pt]. *)
Definition collapsed (pt : SimulationPoint) : Prop :=
  100 < speedRPM pt /\ torque pt < 0.01.

(** A midpoint of the angle search violates the voltage limit. *)
Definition angleInfeasible (params : MotorParams) (omega mid : R) : Prop :=
  vLim params
  < getVoltageMag params omega (- imax params * sin mid) (imax params * cos mid).

(** How the base speed relates to the points pushed so far: either the base
    point was feasible at every one of them and the base speed is still 0, or
    the flag is set and the base speed is the step before the first point at
    which the base point was infeasible, floored at 0. *)
Definition baseSpeedFacts (params : MotorParams) (bp : BasePoint)
    (found : bool) (r : SimulationResult) : Prop :=
  (found = false /\ baseSpeed r = 0
   /\ Forall (fun pt => baseFeasible params bp (speedRPM pt)) (points r))
  \/ (found = true
      /\ exists l1 pt l2,
          points r = l1 ++ pt :: l2
          /\ Forall (fun q => baseFeasible params bp (speedRPM q)) l1
          /\ ~ baseFeasible params bp (speedRPM pt)
          /\ baseSpeed r = Rmax 0 (speedRPM pt - stepRPM params)).

(** What is known of the result after [n] passes of the sweep. *)
Record SweepFacts (params : MotorParams) (bp : BasePoint) (n : nat)
    (found : bool) (r : SimulationResult) : Prop := {
  facts_speeds :
    map speedRPM (points r) = map (sweptSpeed params) (seq 0 n);
  facts_produced : Forall (producedAt params bp) (points r);
  facts_range : Forall (fun pt => speedRPM pt <= maxSpeed params) (points r);
  facts_alive : Forall (fun pt => ~ collapsed pt) (removelast (points r));
  facts_maxTorque : maxTorque r = maxT_static bp;
  facts_base : baseSpeedFacts params bp found r
}.

(** Why the sweep stopped after [n] passes: the last point pushed fired the
    early termination rule, or no point did and the next speed is beyond the
    range. *)
Definition sweepExit (params : MotorParams) (n : nat) (r : SimulationResult)
    : Prop :=
  (exists l pt, points r = l ++ [pt] /\ collapsed pt)
  \/ (maxSpeed params < sweptSpeed params n
      /\ Forall (fun pt => ~ collapsed pt) (points r)).

(** A record on which the angle search of region 2 finds no angle at the
    second speed of the sweep: no resistance, equal inductances, and a magnet
    flux that the current limit cannot cancel. *)
Definition stalledParams : MotorParams := {|
  motorType := SPMSM;
  controlStrategy := IdZero;
  enableFluxWeakening := true;
  rs := 0;
  ld := 1;
  lq := 1;
  psif := 3;
  p := 1;
  vdc := 1;
  voltageUtilization := 1;
  imax := 1;
  maxSpeed := 10
|}.

(* ================================================================= *)
(** ** The parameter form ([ParameterInput])

    Each handler builds the next parameter record and hands it to [onChange];
    the model of a handler is the record it hands over. *)

(** [{ ...params, lq }]. *)
Definition set_lq (v : R) (params : MotorParams) : MotorParams := {|
  motorType := motorType params;
  controlStrategy := controlStrategy params;
  enableFluxWeakening := enableFluxWeakening params;
  rs := rs params;
  ld := ld params;
  lq := v;
  psif := psif params;
  p := p params;
  vdc := vdc params;
  voltageUtilization := voltageUtilization params;
  imax := imax params;
  maxSpeed := maxSpeed params
|}.

Definition handleTypeChange (params : MotorParams) (type : MotorType)
    : MotorParams :=
  let newParams := {|
    motorType := type;
    controlStrategy := controlStrategy params;
    enableFluxWeakening := enableFluxWeakening params;
    rs := rs params;
    ld := ld params;
    lq := lq params;
    psif := psif params;
    p := p params;
    vdc := vdc params;
    voltageUtilization := voltageUtilization params;
    imax := imax params;
    maxSpeed := maxSpeed params
  |} in
  match type with
  | SPMSM => set_lq (ld newParams) newParams
  | IPMSM => newParams
  end.

Definition handleStrategyChange (params : MotorParams)
    (strategy : ControlStrategy) : MotorParams := {|
  motorType := motorType params;
  controlStrategy := strategy;
  enableFluxWeakening := enableFluxWeakening params;
  rs := rs params;
  ld := ld params;
  lq := lq params;
  psif := psif params;
  p := p params;
  vdc := vdc params;
  voltageUtilization := voltageUtilization params;
  imax := imax params;
  maxSpeed := maxSpeed params
|}.

(** [checked] is [e.target.checked]. *)
Definition handleFwChange (params : MotorParams) (checked : bool)
    : MotorParams := {|
  motorType := motorType params;
  controlStrategy := controlStrategy params;
  enableFluxWeakening := checked;
  rs := rs params;
  ld := ld params;
  lq := lq params;
  psif := psif params;
  p := p params;
  vdc := vdc params;
  voltageUtilization := voltageUtilization params;
  imax := imax params;
  maxSpeed := maxSpeed params
|}.

Definition handleLsChange (params : MotorParams) (numValue : R)
    : MotorParams := {|
  motorType := motorType params;
  controlStrategy := controlStrategy params;
  enableFluxWeakening := enableFluxWeakening params;
  rs := rs params;
  ld := numValue;
  lq := numValue;
  psif := psif params;
  p := p params;
  vdc := vdc params;
  voltageUtilization := voltageUtilization params;
  imax := imax params;
  maxSpeed := maxSpeed params
|}.

Definition handleAutoMaxSpeed (params : MotorParams) : MotorParams :=
  let speed := calculateTheoreticalMaxSpeed params in
  {|
    motorType := motorType params;
    controlStrategy := controlStrategy params;
    enableFluxWeakening := enableFluxWeakening params;
    rs := rs params;
    ld := ld params;
    lq := lq params;
    psif := psif params;
    p := p params;
    vdc := vdc params;
    voltageUtilization := voltageUtilization params;
    imax := imax params;
    maxSpeed := speed
  |}.

(** The state of the sweep before its first pass. *)
Definition sweepInit (bp : BasePoint) : SweepState :=
  {| acc := {| points := []; maxTorque := maxT_static bp;
               baseSpeed := 0; maxPower := 0 |};
     baseSpeedFound := false |}.

(** The squared magnitude of the current of a point. *)
Definition currentSq (pt : SimulationPoint) : R :=
  id pt * id pt + iq pt * iq pt.

(** The voltage magnitude of the currents of a point at its own speed. *)
Definition vMagOf (params : MotorParams) (pt : SimulationPoint) : R :=
  getVoltageMag params (omegaOf params (speedRPM pt)) (id pt) (iq pt).

(** What the angle search keeps, started at [beta]: its bounds stay between
    [beta] and 90 degrees, the best angle is the upper bound, the lower bound
    violates the voltage limit, and once a solution is recorded the upper bound
    satisfies it. *)
Definition angleBracket (params : MotorParams) (omega beta : R)
    (s : AngleSearch) : Prop :=
  beta <= low s /\ low s <= high s /\ high s <= PI / 2
  /\ optimalB s = high s
  /\ angleInfeasible params omega (low s)
  /\ (foundSolution s = true ->
      getVoltageMag params omega
        (- imax params * sin (high s)) (imax params * cos (high s))
      <= vLim params).

(** What the magnitude search keeps: its bounds stay between 0 and [imax], the
    retained currents have the magnitude of the lower bound and, unless that
    is still 0, satisfy the voltage limit, and the upper bound is [imax] or a
    magnitude whose trial violated the limit. *)
Definition magnitudeBracket (params : MotorParams) (omega : R)
    (s : MagnitudeSearch) : Prop :=
  0 <= lowI s /\ lowI s <= highI s /\ highI s <= imax params
  /\ validId s * validId s + validIq s * validIq s = lowI s * lowI s
  /\ (lowI s = 0 \/ getVoltageMag params omega (validId s) (validIq s)
                     <= vLim params)
  /\ (highI s = imax params
      \/ exists beta,
           trialAngle params (highI s) = Some beta
           /\ vLim params
              < getVoltageMag params omega
                  (- highI s * sin beta) (highI s * cos beta)).

(** The result by position: the sequence has [n] points; pass [i] pushed the
    point at position [i], at speed [sweptSpeed i] within the range, and no
    point with a successor fired the early termination rule; the sweep stopped
    on a point that fired it or beyond the range. *)
Record IndexedRun (params : MotorParams) (bp : BasePoint) (n : nat)
    (r : SimulationResult) : Prop := {
  run_length : length (points r) = n;
  run_point :
    forall i, (i < n)%nat ->
      exists pt,
        nth_error (points r) i = Some pt
        /\ speedRPM pt = sweptSpeed params i
        /\ producedAt params bp pt
        /\ sweptSpeed params i <= maxSpeed params
        /\ ((S i < n)%nat -> ~ collapsed pt);
  run_exit :
    (exists pt, nth_error (points r) (n - 1) = Some pt /\ collapsed pt)
    \/ maxSpeed params < sweptSpeed params n
}.

(** Pass [j] is the first of [n] passes at which the base point is
    infeasible. *)
Definition firstInfeasible (params : MotorParams) (bp : BasePoint)
    (n j : nat) : Prop :=
  (j < n)%nat
  /\ (forall i, (i < j)%nat -> baseFeasible params bp (sweptSpeed params i))
  /\ ~ baseFeasible params bp (sweptSpeed params j).

(** The base speed by position: 0 with the base point feasible at every pass,
    or the step before the first infeasible pass, floored at 0. *)
Definition baseSpeedIndexed (params : MotorParams) (bp : BasePoint) (n : nat)
    (r : SimulationResult) : Prop :=
  (baseSpeed r = 0
   /\ forall i, (i < n)%nat -> baseFeasible params bp (sweptSpeed params i))
  \/ exists j,
       firstInfeasible params bp n j
       /\ baseSpeed r = Rmax 0 (sweptSpeed params j - stepRPM params).

(* ================================================================= *)
(** ** Comparisons and rounding *)

Lemma js_le_true (x y : R) : (x <=? y) = true <-> x <= y.
Proof. unfold js_le. destruct (Rle_dec x y); split; intros; easy. Qed.

Lemma js_le_false (x y : R) : (x <=? y) = false <-> y < x.
Proof.
  unfold js_le. destruct (Rle_dec x y); split; intros; try easy; lra.
Qed.

Lemma js_lt_true (x y : R) : (x <? y) = true <-> x < y.
Proof. unfold js_lt. destruct (Rlt_dec x y); split; intros; easy. Qed.

Lemma js_lt_false (x y : R) : (x <? y) = false <-> y <= x.
Proof.
  unfold js_lt. destruct (Rlt_dec x y); split; intros; try easy; lra.
Qed.

Lemma js_gt_true (x y : R) : (x >? y) = true <-> y < x.
Proof. unfold js_gt. destruct (Rgt_dec x y); split; intros; try easy; lra. Qed.

Lemma js_gt_false (x y : R) : (x >? y) = false <-> x <= y.
Proof.
  unfold js_gt. destruct (Rgt_dec x y); split; intros; try easy; lra.
Qed.

Lemma js_ge_true (x y : R) : (x >=? y) = true <-> y <= x.
Proof. unfold js_ge. destruct (Rge_dec x y); split; intros; try easy; lra. Qed.

Lemma js_ge_false (x y : R) : (x >=? y) = false <-> x < y.
Proof.
  unfold js_ge. destruct (Rge_dec x y); split; intros; try easy; lra.
Qed.

(** [Math.ceil x] is the least integer that is at least [x]: it lies in
    [[x, x + 1)]. *)
Lemma Math_ceil_bounds (x : R) : x <= Math_ceil x < x + 1.
Proof.
  unfold Math_ceil, Math_floor, Int_part.
  destruct (archimed (- x)) as [Hgt Hle].
  rewrite minus_IZR. simpl. lra.
Qed.

Lemma Math_ceil_IZR (z : Z) : Math_ceil (IZR z) = IZR z.
Proof.
  unfold Math_ceil, Math_floor, Int_part.
  destruct (archimed (- IZR z)) as [Hgt Hle].
  set (u := up (- IZR z)) in *.
  assert (u = (- z + 1)%Z) as ->.
  { assert (IZR (- z) < IZR u) as H1 by (rewrite opp_IZR; lra).
    assert (IZR u <= IZR (- z + 1)) as H2
      by (rewrite plus_IZR, opp_IZR; lra).
    apply lt_IZR in H1. apply le_IZR in H2. lia. }
  rewrite minus_IZR, plus_IZR, opp_IZR. lra.
Qed.

(** The step of the sweep is positive, and a hundred steps cover the range. *)
Lemma stepRPM_ge_10 (params : MotorParams) : 10 <= stepRPM params.
Proof. unfold stepRPM. apply Rmax_l. Qed.

Lemma stepRPM_covers (params : MotorParams) :
  maxSpeed params <= 100 * stepRPM params.
Proof.
  unfold stepRPM.
  pose proof (Math_ceil_bounds (maxSpeed params / 100)) as [H _].
  pose proof (Rmax_r 10 (Math_ceil (maxSpeed params / 100))). lra.
Qed.

(** The default motor is swept in steps of 50 RPM. *)
Example default_stepRPM : stepRPM DEFAULT_PARAMS = 50.
Proof.
  unfold stepRPM. cbn [maxSpeed DEFAULT_PARAMS].
  replace (5000 / 100) with (IZR 50) by lra.
  rewrite Math_ceil_IZR. apply Rmax_right. lra.
Qed.

(* ================================================================= *)
(** ** The theoretical maximum speed *)

(** Rounding up to a multiple of 100 overshoots by less than 100. *)
Lemma round_up_100 (x : R) :
  x <= Math_ceil (x / 100) * 100 < x + 100.
Proof. pose proof (Math_ceil_bounds (x / 100)). lra. Qed.

(** Scenario D: the default motor with flux weakening enabled and a current
    limit of 70 A, above the characteristic current of about 67.7 A. *)
Example max_speed_sentinel :
  calculateTheoreticalMaxSpeed
    {| motorType := IPMSM; controlStrategy := MTPA;
       enableFluxWeakening := true;
       rs := 0.0595; ld := 0.0000235; lq := 0.000035; psif := 0.00159;
       p := 15; vdc := 18.5; voltageUtilization := 0.9;
       imax := 70; maxSpeed := 5000 |}
  = 20000.
Proof.
  unfold calculateTheoreticalMaxSpeed. cbn.
  assert ((70 >=? 0.00159 / 0.0000235) = true) as ->; [|reflexivity].
  apply js_ge_true. lra.
Qed.

(** C4.  With flux weakening enabled (and a d-axis inductance that is
    positive, as the data model requires), the estimate is the sentinel 20000
    when [imax >= psif / ld], it is the sentinel as well when
    [imax < psif / ld] and the residual flux [|psif - ld * imax|] is below
    [1e-9], and otherwise it is the speed [vLim / residualFlux] converted to
    RPM and rounded up to a multiple of 100. *)
Theorem max_speed_flux_weakening (params : MotorParams) :
  enableFluxWeakening params = true ->
  0 < ld params ->
  let residualFlux := Rabs (psif params - ld params * imax params) in
  (imax params >= psif params / ld params ->
     calculateTheoreticalMaxSpeed params = 20000)
  /\ (imax params < psif params / ld params -> residualFlux < 1e-9 ->
     calculateTheoreticalMaxSpeed params = 20000)
  /\ (imax params < psif params / ld params -> ~ residualFlux < 1e-9 ->
     calculateTheoreticalMaxSpeed params
     = Math_ceil
         (((((vdc params / sqrt 3) * voltageUtilization params) / residualFlux)
           * 60 / (2 * PI * p params)) / 100) * 100).
Proof.
  intros Hfw _ residualFlux.
  unfold calculateTheoreticalMaxSpeed. rewrite Hfw. cbn [negb].
  fold residualFlux. unfold vLim.
  destruct (imax params >=? psif params / ld params) eqn:Hich.
  - apply js_ge_true in Hich. repeat split; intros; try reflexivity; lra.
  - apply js_ge_false in Hich.
    destruct (residualFlux <? 1e-9) eqn:Hres.
    + apply js_lt_true in Hres. repeat split; intros; try reflexivity; lra.
    + apply js_lt_false in Hres. repeat split; intros; try reflexivity; lra.
Qed.

Lemma max_speed_flux_weakening_witness :
  let params := with_mode MTPA true DEFAULT_PARAMS in
  let residualFlux := Rabs (psif params - ld params * imax params) in
  (imax params >= psif params / ld params ->
     calculateTheoreticalMaxSpeed params = 20000)
  /\ (imax params < psif params / ld params -> residualFlux < 1e-9 ->
     calculateTheoreticalMaxSpeed params = 20000)
  /\ (imax params < psif params / ld params -> ~ residualFlux < 1e-9 ->
     calculateTheoreticalMaxSpeed params
     = Math_ceil
         (((((vdc params / sqrt 3) * voltageUtilization params) / residualFlux)
           * 60 / (2 * PI * p params)) / 100) * 100).
Proof.
  apply (max_speed_flux_weakening (with_mode MTPA true DEFAULT_PARAMS)).
  - reflexivity.
  - simpl. lra.
Defined.

(** C5.  With flux weakening disabled (and a flux linkage and a pole pair
    count in the ranges of the data model), the estimate is the no-load speed
    [vLim / psif], converted to RPM and rounded up to a multiple of 100; it is
    at least that speed in RPM and less than 100 RPM above it. *)
Theorem max_speed_no_load (params : MotorParams) :
  enableFluxWeakening params = false ->
  0 < psif params ->
  1 <= p params ->
  let noLoadRPM :=
    ((((vdc params / sqrt 3) * voltageUtilization params) / psif params) * 60)
    / (2 * PI * p params) in
  calculateTheoreticalMaxSpeed params = Math_ceil (noLoadRPM / 100) * 100
  /\ noLoadRPM <= calculateTheoreticalMaxSpeed params < noLoadRPM + 100.
Proof.
  intros Hfw _ _ noLoadRPM.
  assert (calculateTheoreticalMaxSpeed params
          = Math_ceil (noLoadRPM / 100) * 100) as Heq.
  { unfold calculateTheoreticalMaxSpeed. rewrite Hfw. reflexivity. }
  split; [exact Heq|]. rewrite Heq. apply round_up_100.
Qed.

Lemma max_speed_no_load_witness :
  let params := DEFAULT_PARAMS in
  let noLoadRPM :=
    ((((vdc params / sqrt 3) * voltageUtilization params) / psif params) * 60)
    / (2 * PI * p params) in
  calculateTheoreticalMaxSpeed params = Math_ceil (noLoadRPM / 100) * 100
  /\ noLoadRPM <= calculateTheoreticalMaxSpeed params < noLoadRPM + 100.
Proof.
  apply (max_speed_no_load DEFAULT_PARAMS).
  - reflexivity.
  - simpl. lra.
  - simpl. lra.
Defined.

(* ================================================================= *)
(** ** Loops *)

Section ForLoop.
Context {S : Type} (body : R -> S -> S) (hi step : R).

(** Enough fuel for [n] passes and the exit gives a result. *)
Lemma for_loop_total :
  0 < step ->
  forall (n fuel : nat) (b : R) (s : S),
    (n < fuel)%nat -> hi < b + INR n * step ->
    exists s', for_loop fuel b hi step body s = Some s'.
Proof.
  intros Hstep n. induction n as [|n IH]; intros fuel b s Hfuel Hhi.
  - destruct fuel as [|fuel]; [lia|]. simpl in *.
    destruct (b <=? hi) eqn:Hb; [|eauto].
    apply js_le_true in Hb. lra.
  - destruct fuel as [|fuel]; [lia|]. simpl.
    destruct (b <=? hi) eqn:Hb; [|eauto].
    apply IH; [lia|]. rewrite S_INR in Hhi. lra.
Qed.

(** Invariant rule: what holds before the first test and is kept by every
    pass holds at the exit, where the counter is beyond the limit. *)
Lemma for_loop_invariant (Inv : R -> S -> Prop) :
  (forall b s, Inv b s -> b <= hi -> Inv (b + step) (body b s)) ->
  forall (fuel : nat) (b : R) (s s' : S),
    Inv b s -> for_loop fuel b hi step body s = Some s' ->
    exists b', hi < b' /\ Inv b' s'.
Proof.
  intros Hkeep fuel. induction fuel as [|fuel IH]; intros b s s' Hinv Hrun.
  - discriminate.
  - simpl in Hrun. destruct (b <=? hi) eqn:Hb.
    + apply js_le_true in Hb. eapply IH; [|exact Hrun]. auto.
    + apply js_le_false in Hb. injection Hrun as <-. eauto.
Qed.
End ForLoop.

Lemma repeat_loop_opt_total {S : Type} (body : S -> option S) :
  (forall s, exists s', body s = Some s') ->
  forall (n : nat) (s : S), exists s', repeat_loop_opt n body s = Some s'.
Proof.
  intros Hbody n. induction n as [|n IH]; intros s; simpl; [eauto|].
  destruct (Hbody s) as [s1 ->]. apply IH.
Qed.

Lemma repeat_loop_invariant {S : Type} (body : S -> S) (Inv : S -> Prop) :
  (forall s, Inv s -> Inv (body s)) ->
  forall (n : nat) (s : S), Inv s -> Inv (repeat_loop n body s).
Proof.
  intros Hkeep n. induction n as [|n IH]; intros s Hs; simpl; auto.
Qed.

Lemma repeat_loop_opt_invariant {S : Type} (body : S -> option S)
    (Inv : S -> Prop) :
  (forall s s', Inv s -> body s = Some s' -> Inv s') ->
  forall (n : nat) (s s' : S),
    Inv s -> repeat_loop_opt n body s = Some s' -> Inv s'.
Proof.
  intros Hkeep n. induction n as [|n IH]; intros s s' Hs Hrun; simpl in Hrun.
  - injection Hrun as <-. exact Hs.
  - destruct (body s) as [s1|] eqn:Hb; [|discriminate]. eauto.
Qed.

(* ================================================================= *)
(** ** Totality of the searches *)

Lemma baseOperatingPoint_total (params : MotorParams) :
  exists bp, baseOperatingPoint params = Some bp.
Proof.
  unfold baseOperatingPoint. destruct (controlStrategy params); [|eauto].
  apply for_loop_total with (n := 181%nat); [lra | unfold mtpaScanFuel; lia |].
  rewrite INR_IZR_INZ. simpl. lra.
Qed.

Lemma trialAngle_total (params : MotorParams) (midI : R) :
  exists beta, trialAngle params midI = Some beta.
Proof.
  unfold trialAngle. destruct (controlStrategy params); [|eauto].
  destruct (for_loop_total (localScan params midI) 90 5 ltac:(lra) 19
              coarseScanFuel 0 {| maxT_local := -1e9; tBeta := 0 |})
    as [coarse ->].
  { unfold coarseScanFuel. lia. }
  { rewrite INR_IZR_INZ. simpl. lra. }
  set (bestDeg := tBeta coarse * 180 / PI).
  destruct (for_loop_total (localScan params midI) (bestDeg + 4) 1 ltac:(lra) 9
              fineScanFuel (bestDeg - 4) coarse) as [fine ->].
  { unfold fineScanFuel. lia. }
  { rewrite INR_IZR_INZ. simpl. lra. }
  eauto.
Qed.

Lemma magnitudeSearchStep_total (params : MotorParams) (omega : R)
    (s : MagnitudeSearch) :
  exists s', magnitudeSearchStep params omega s = Some s'.
Proof.
  unfold magnitudeSearchStep.
  destruct (trialAngle_total params ((lowI s + highI s) / 2)) as [beta ->].
  destruct (_ <=? _); eauto.
Qed.

Lemma naturalCharacteristic_total (params : MotorParams) (omega : R) :
  exists op, naturalCharacteristic params omega = Some op.
Proof.
  unfold naturalCharacteristic.
  destruct (repeat_loop_opt_total (magnitudeSearchStep params omega)
              (magnitudeSearchStep_total params omega) 15
              {| lowI := 0; highI := imax params;
                 validId := 0; validIq := 0; validBeta := 0 |}) as [s ->].
  eauto.
Qed.

Lemma operatingPointAt_total (params : MotorParams) (bp : BasePoint) (rpm : R) :
  exists op, operatingPointAt params bp rpm = Some op.
Proof.
  unfold operatingPointAt.
  destruct (_ <=? _); [eauto|].
  destruct (enableFluxWeakening params); [eauto|].
  apply naturalCharacteristic_total.
Qed.

(* ================================================================= *)
(** ** One pass of the sweep *)

(** The body always answers: it pushes the point of the operating point at
    [rpm], records the base speed when the base point is infeasible, and
    breaks exactly when the early termination rule fires. *)
Lemma sweepBody_spec (params : MotorParams) (bp : BasePoint) (rpm : R)
    (st : SweepState) :
  exists op,
    operatingPointAt params bp rpm = Some op
    /\ let pt := simulationPoint params rpm op in
       let st1 := if vMagBase params bp rpm <=? vLim params then st
                  else recordBaseSpeed params rpm st in
       sweepBody params bp rpm st
       = Some (if (rpm >? 100) && (torque pt <? 0.01)
               then Break (pushPoint pt st1)
               else Continue (pushPoint pt st1)).
Proof.
  destruct (operatingPointAt_total params bp rpm) as [op Hop].
  exists op. split; [exact Hop|].
  unfold sweepBody, operatingPointAt, vMagBase in *.
  destruct (_ <=? vLim params).
  - injection Hop as <-. cbn [fst snd]. destruct (_ && _); reflexivity.
  - destruct (enableFluxWeakening params).
    + injection Hop as <-. cbn [fst snd]. destruct (_ && _); reflexivity.
    + rewrite Hop. cbn [fst snd]. destruct (_ && _); reflexivity.
Qed.

Lemma collapsed_test (params : MotorParams) (rpm : R) (op : OperatingPoint) :
  let pt := simulationPoint params rpm op in
  (rpm >? 100) && (torque pt <? 0.01) = true <-> collapsed pt.
Proof.
  cbn zeta. unfold collapsed. rewrite andb_true_iff, js_gt_true, js_lt_true.
  reflexivity.
Qed.

Lemma sweep_unfold (fuel : nat) (params : MotorParams) (bp : BasePoint)
    (rpm : R) (st : SweepState) :
  sweep (S fuel) params bp rpm st
  = if rpm <=? maxSpeed params then
      f <- sweepBody params bp rpm st ;;
      match f with
      | Continue st' => sweep fuel params bp (rpm + stepRPM params) st'
      | Break st' => Some st'
      end
    else Some st.
Proof. reflexivity. Qed.

(** Induction over the passes of the sweep. *)
Lemma sweep_invariant (params : MotorParams) (bp : BasePoint)
    (Inv : R -> SweepState -> Prop) (Post : SweepState -> Prop) :
  (forall rpm st, Inv rpm st -> maxSpeed params < rpm -> Post st) ->
  (forall rpm st st',
      Inv rpm st -> rpm <= maxSpeed params ->
      sweepBody params bp rpm st = Some (Continue st') ->
      Inv (rpm + stepRPM params) st') ->
  (forall rpm st st',
      Inv rpm st -> rpm <= maxSpeed params ->
      sweepBody params bp rpm st = Some (Break st') -> Post st') ->
  forall (fuel : nat) (rpm : R) (st st' : SweepState),
    Inv rpm st -> sweep fuel params bp rpm st = Some st' -> Post st'.
Proof.
  intros Hexit Hcont Hbreak fuel.
  induction fuel as [|fuel IH]; intros rpm st st' Hinv Hrun; [discriminate|].
  simpl in Hrun. destruct (rpm <=? maxSpeed params) eqn:Hrpm.
  - apply js_le_true in Hrpm.
    destruct (sweepBody params bp rpm st) as [[st1|st1]|] eqn:Hbody;
      [| |discriminate].
    + eapply IH; [|exact Hrun]. eauto.
    + injection Hrun as <-. eauto.
  - apply js_le_false in Hrpm. injection Hrun as <-. eauto.
Qed.

(** The sweep never runs out of fuel. *)
Lemma sweep_total_from (params : MotorParams) (bp : BasePoint) :
  forall (n fuel : nat) (rpm : R) (st : SweepState),
    (n < fuel)%nat -> maxSpeed params < rpm + INR n * stepRPM params ->
    exists st', sweep fuel params bp rpm st = Some st'.
Proof.
  pose proof (stepRPM_ge_10 params) as Hstep.
  intros n. induction n as [|n IH]; intros fuel rpm st Hfuel Hhi;
    (destruct fuel as [|fuel]; [lia|]); simpl.
  - destruct (rpm <=? maxSpeed params) eqn:Hrpm; [|eauto].
    apply js_le_true in Hrpm. simpl in Hhi. lra.
  - destruct (rpm <=? maxSpeed params) eqn:Hrpm; [|eauto].
    destruct (sweepBody_spec params bp rpm st) as (op & _ & ->).
    destruct (_ && _); [eauto|].
    apply IH; [lia|]. rewrite S_INR in Hhi. lra.
Qed.

Lemma sweep_total (params : MotorParams) (bp : BasePoint) (st : SweepState) :
  exists st', sweep sweepFuel params bp 0 st = Some st'.
Proof.
  apply sweep_total_from with (n := 101%nat); [unfold sweepFuel; lia|].
  pose proof (stepRPM_ge_10 params). pose proof (stepRPM_covers params).
  rewrite INR_IZR_INZ. simpl. lra.
Qed.

(** [calculateMotorCharacteristics] always returns a result. *)
Lemma calculateMotorCharacteristics_total (params : MotorParams) :
  exists r, calculateMotorCharacteristics params = Some r.
Proof.
  unfold calculateMotorCharacteristics.
  destruct (baseOperatingPoint_total params) as [bp ->].
  match goal with
  | |- context [sweep _ _ _ _ ?st0] =>
      destruct (sweep_total params bp st0) as [st ->]
  end.
  eauto.
Qed.

(* ================================================================= *)
(** ** The result of the sweep *)

Lemma sweptSpeed_0 (params : MotorParams) : sweptSpeed params 0 = 0.
Proof. unfold sweptSpeed. simpl. lra. Qed.

Lemma sweptSpeed_S (params : MotorParams) (n : nat) :
  sweptSpeed params (S n) = sweptSpeed params n + stepRPM params.
Proof. unfold sweptSpeed. rewrite S_INR. lra. Qed.

Lemma sweptSpeed_lt (params : MotorParams) (i j : nat) :
  (i < j)%nat -> sweptSpeed params i < sweptSpeed params j.
Proof.
  intros Hij. unfold sweptSpeed. pose proof (stepRPM_ge_10 params).
  apply lt_INR in Hij. nra.
Qed.

Lemma sweptSpeed_nonneg (params : MotorParams) (k : nat) :
  0 <= sweptSpeed params k.
Proof.
  unfold sweptSpeed. pose proof (stepRPM_ge_10 params).
  pose proof (pos_INR k). nra.
Qed.

(** One pass keeps the facts: it adds the point of speed [sweptSpeed n]. *)
Lemma sweep_pass (params : MotorParams) (bp : BasePoint) (n : nat)
    (st : SweepState) :
  SweepFacts params bp n (baseSpeedFound st) (acc st) ->
  Forall (fun pt => ~ collapsed pt) (points (acc st)) ->
  sweptSpeed params n <= maxSpeed params ->
  exists st' : SweepState,
    SweepFacts params bp (S n) (baseSpeedFound st') (acc st')
    /\ ((sweepBody params bp (sweptSpeed params n) st = Some (Break st')
         /\ exists l pt, points (acc st') = l ++ [pt] /\ collapsed pt)
        \/ (sweepBody params bp (sweptSpeed params n) st = Some (Continue st')
            /\ Forall (fun pt => ~ collapsed pt) (points (acc st')))).
Proof.
  intros [Hspeeds Hprod Hrange _ HmaxT Hbase] Halive Hle.
  set (rpm := sweptSpeed params n).
  destruct (sweepBody_spec params bp rpm st) as (op & Hop & Hbody).
  cbn zeta in Hbody.
  set (pt := simulationPoint params rpm op) in *.
  set (st1 := if vMagBase params bp rpm <=? vLim params then st
              else recordBaseSpeed params rpm st) in *.
  assert (points (acc st1) = points (acc st)) as Hpts1.
  { unfold st1, recordBaseSpeed.
    destruct (_ <=? _); [reflexivity|].
    destruct (baseSpeedFound st); reflexivity. }
  assert (maxTorque (acc st1) = maxTorque (acc st)) as HmaxT1.
  { unfold st1, recordBaseSpeed.
    destruct (_ <=? _); [reflexivity|].
    destruct (baseSpeedFound st); reflexivity. }
  assert (speedRPM pt = rpm) as Hspeed by reflexivity.
  exists (pushPoint pt st1). split.
  - constructor; cbn [pushPoint acc points maxTorque baseSpeed baseSpeedFound].
    + rewrite Hpts1, map_app, Hspeeds, seq_S, map_app. reflexivity.
    + rewrite Hpts1. apply Forall_app. split; [exact Hprod|].
      constructor; [|constructor]. exists op. rewrite Hspeed. auto.
    + rewrite Hpts1. apply Forall_app. split; [exact Hrange|].
      constructor; [exact Hle|constructor].
    + rewrite Hpts1, removelast_last. exact Halive.
    + rewrite HmaxT1. exact HmaxT.
    + unfold baseSpeedFacts.
      cbn [pushPoint acc points maxTorque baseSpeed baseSpeedFound].
      unfold st1, recordBaseSpeed.
      destruct (vMagBase params bp rpm <=? vLim params) eqn:Hfeas.
      * apply js_le_true in Hfeas.
        destruct Hbase as [(Hf & Hb & Hall)|(Hf & l1 & q & l2 & Hl & H1 & Hq & Hb)].
        -- left. repeat split; auto. apply Forall_app. split; [exact Hall|].
           constructor; [exact Hfeas|constructor].
        -- right. split; [exact Hf|]. exists l1, q, (l2 ++ [pt]).
           rewrite Hl, <- app_assoc. auto.
      * apply js_le_false in Hfeas.
        destruct Hbase as [(Hf & Hb & Hall)|(Hf & l1 & q & l2 & Hl & H1 & Hq & Hb)].
        -- right. rewrite Hf. cbn. split; [reflexivity|].
           exists (points (acc st)), pt, []. repeat split; auto.
           unfold baseFeasible. rewrite Hspeed. lra.
        -- right. rewrite Hf. cbn. split; [exact Hf|].
           exists l1, q, (l2 ++ [pt]). rewrite Hl, <- app_assoc. auto.
  - rewrite Hbody. destruct ((rpm >? 100) && (torque pt <? 0.01)) eqn:Hc;
      [left|right]; (split; [reflexivity|]).
    { exists (points (acc st1)), pt. split; [reflexivity|].
      apply (collapsed_test params rpm op). exact Hc. }
    cbn [pushPoint acc points]. rewrite Hpts1. apply Forall_app.
    split; [exact Halive|]. constructor; [|constructor].
    intros Hcol. apply (collapsed_test params rpm op) in Hcol.
    fold pt in Hcol. congruence.
Qed.

(** The result of the sweep: it exists, and after some number [n] of passes
    the facts hold of it; a non-negative range gives at least one pass. *)
Lemma characteristics_facts (params : MotorParams) :
  exists r bp n found,
    calculateMotorCharacteristics params = Some r
    /\ baseOperatingPoint params = Some bp
    /\ SweepFacts params bp n found r
    /\ (0 <= maxSpeed params -> (1 <= n)%nat)
    /\ sweepExit params n r.
Proof.
  destruct (baseOperatingPoint_total params) as [bp Hbp].
  set (init := {| acc := {| points := []; maxTorque := maxT_static bp;
                            baseSpeed := 0; maxPower := 0 |};
                  baseSpeedFound := false |}).
  destruct (sweep_total params bp init) as [st Hrun].
  exists (acc st), bp.
  enough (exists n, SweepFacts params bp n (baseSpeedFound st) (acc st)
                    /\ (0 <= maxSpeed params -> (1 <= n)%nat)
                    /\ sweepExit params n (acc st))
    as (n & Hfacts & Hn & Hexit).
  { exists n, (baseSpeedFound st).
    split; [|split; [exact Hbp|repeat (split; [assumption|]); assumption]].
    unfold calculateMotorCharacteristics. rewrite Hbp.
    fold init. rewrite Hrun. reflexivity. }
  apply (sweep_invariant params bp
           (fun rpm s =>
              exists n, rpm = sweptSpeed params n
                        /\ SweepFacts params bp n (baseSpeedFound s) (acc s)
                        /\ Forall (fun pt => ~ collapsed pt) (points (acc s)))
           (fun s =>
              exists n, SweepFacts params bp n (baseSpeedFound s) (acc s)
                        /\ (0 <= maxSpeed params -> (1 <= n)%nat)
                        /\ sweepExit params n (acc s)))
    with (fuel := sweepFuel) (rpm := 0) (st := init); [| | | |exact Hrun].
  - intros rpm s (n & -> & Hfacts & Halive) Hexit. exists n.
    split; [exact Hfacts|]. split; [|right; auto].
    intros Hmax. destruct n; [|lia]. rewrite sweptSpeed_0 in Hexit. lra.
  - intros rpm s s' (n & -> & Hfacts & Halive) Hle Hbody.
    destruct (sweep_pass params bp n s Hfacts Halive Hle)
      as (s2 & Hfacts2 & [[Hb _]|[Hb Halive2]]); rewrite Hb in Hbody;
      [discriminate|]. injection Hbody as <-.
    exists (S n). rewrite sweptSpeed_S. auto.
  - intros rpm s s' (n & -> & Hfacts & Halive) Hle Hbody.
    destruct (sweep_pass params bp n s Hfacts Halive Hle)
      as (s2 & Hfacts2 & [[Hb Hlast]|[Hb _]]); rewrite Hb in Hbody;
      [|discriminate]. injection Hbody as <-.
    exists (S n). split; [exact Hfacts2|]. split; [lia|left; exact Hlast].
  - exists 0%nat. rewrite sweptSpeed_0. split; [reflexivity|].
    split; [|constructor].
    constructor; cbn [init acc points maxTorque baseSpeed baseSpeedFound
                      removelast map seq];
      [reflexivity | constructor | constructor | constructor | reflexivity |].
    left. cbn. repeat split; constructor.
Qed.

(* ================================================================= *)
(** ** Speeds of the points *)

(** The speed of a point is the swept speed of its position. *)
Lemma speed_at_position (params : MotorParams) (n : nat)
    (pts l1 l2 : list SimulationPoint) (pt : SimulationPoint) :
  map speedRPM pts = map (sweptSpeed params) (seq 0 n) ->
  pts = l1 ++ pt :: l2 ->
  speedRPM pt = sweptSpeed params (length l1).
Proof.
  intros Hspeeds ->.
  apply (f_equal (fun l => nth_error l (length l1))) in Hspeeds.
  rewrite !nth_error_map, nth_error_app2, Nat.sub_diag, nth_error_seq
    in Hspeeds by lia.
  simpl in Hspeeds. destruct (length l1 <? n)%nat; [|discriminate].
  simpl in Hspeeds. congruence.
Qed.

Lemma sweptSpeeds_sorted (params : MotorParams) (n a : nat) :
  StronglySorted Rlt (map (sweptSpeed params) (seq a n)).
Proof.
  revert a. induction n as [|n IH]; intros a; simpl; constructor; [apply IH|].
  apply Forall_forall. intros x Hx. apply in_map_iff in Hx.
  destruct Hx as (k & <- & Hk). apply in_seq in Hk.
  apply sweptSpeed_lt. lia.
Qed.

(** C6.  With a non-negative sweep ceiling the result has at least one point,
    the first point is at speed 0, each point is exactly
    [max(10, ceil(maxSpeed / 100))] above the one before it, and the speeds
    increase strictly along the sequence. *)
Theorem sweep_speeds_spaced (params : MotorParams) :
  0 <= maxSpeed params ->
  exists r,
    calculateMotorCharacteristics params = Some r
    /\ (exists pt rest, points r = pt :: rest /\ speedRPM pt = 0)
    /\ (forall l1 a b l2,
          points r = l1 ++ a :: b :: l2 ->
          speedRPM b
          = speedRPM a + Rmax 10 (Math_ceil (maxSpeed params / 100)))
    /\ StronglySorted Rlt (map speedRPM (points r)).
Proof.
  intros Hmax.
  destruct (characteristics_facts params)
    as (r & bp & n & found & Hr & _ & Hfacts & Hn & _).
  specialize (Hn Hmax). destruct Hfacts as [Hspeeds _ _ _ _ _].
  exists r. split; [exact Hr|]. repeat split.
  - destruct (points r) as [|pt rest] eqn:Hpts.
    + destruct n; [lia|discriminate].
    + exists pt, rest. split; [reflexivity|].
      rewrite (speed_at_position params n (pt :: rest) [] rest pt Hspeeds)
        by reflexivity.
      apply sweptSpeed_0.
  - intros l1 a b l2 Hpts.
    rewrite (speed_at_position params n _ l1 (b :: l2) a Hspeeds Hpts).
    rewrite (speed_at_position params n _ (l1 ++ [a]) l2 b Hspeeds)
      by (rewrite Hpts, <- app_assoc; reflexivity).
    rewrite length_app, Nat.add_comm. cbn [length Nat.add].
    apply sweptSpeed_S.
  - rewrite Hspeeds. apply sweptSpeeds_sorted.
Qed.

Lemma sweep_speeds_spaced_witness :
  exists r,
    calculateMotorCharacteristics DEFAULT_PARAMS = Some r
    /\ (exists pt rest, points r = pt :: rest /\ speedRPM pt = 0)
    /\ (forall l1 a b l2,
          points r = l1 ++ a :: b :: l2 ->
          speedRPM b
          = speedRPM a + Rmax 10 (Math_ceil (maxSpeed DEFAULT_PARAMS / 100)))
    /\ StronglySorted Rlt (map speedRPM (points r)).
Proof.
  apply (sweep_speeds_spaced DEFAULT_PARAMS). simpl. lra.
Defined.

(* ================================================================= *)
(** ** Early termination *)

(** C7.  No point before the last one has both a speed above 100 RPM and a
    clamped torque below 0.01 Nm; a point that has both is the last of the
    sequence; and a pass of the sweep whose point has both ends the sweep
    there, with that point appended. *)
Theorem sweep_stops_at_collapse (params : MotorParams) :
  exists r,
    calculateMotorCharacteristics params = Some r
    /\ (forall l1 pt l2,
          points r = l1 ++ pt :: l2 -> l2 <> [] ->
          ~ (100 < speedRPM pt /\ torque pt < 0.01))
    /\ (forall pt,
          In pt (points r) -> 100 < speedRPM pt /\ torque pt < 0.01 ->
          exists l, points r = l ++ [pt])
    /\ (forall fuel bp rpm st,
          rpm <= maxSpeed params ->
          exists op,
            operatingPointAt params bp rpm = Some op
            /\ let pt := simulationPoint params rpm op in
               100 < speedRPM pt /\ torque pt < 0.01 ->
               exists st',
                 sweep (S fuel) params bp rpm st = Some st'
                 /\ points (acc st') = points (acc st) ++ [pt]).
Proof.
  destruct (characteristics_facts params)
    as (r & bp & n & found & Hr & _ & Hfacts & _ & _).
  destruct Hfacts as [_ _ _ Halive _ _].
  assert (forall l1 pt l2,
             points r = l1 ++ pt :: l2 -> l2 <> [] -> ~ collapsed pt) as Hmid.
  { intros l1 pt l2 Hpts Hl2. rewrite Hpts in Halive.
    rewrite removelast_app in Halive by discriminate.
    apply Forall_app in Halive. destruct Halive as [_ Halive].
    destruct l2 as [|q l2]; [congruence|].
    cbn [removelast] in Halive. inversion Halive. assumption. }
  exists r. split; [exact Hr|]. split; [exact Hmid|]. split.
  - intros pt Hin Hcol. apply in_split in Hin. destruct Hin as (l1 & l2 & Hpts).
    destruct l2 as [|q l2]; [eauto|].
    exfalso. apply (Hmid l1 pt (q :: l2) Hpts); [discriminate|exact Hcol].
  - intros fuel bp' rpm st Hrpm.
    destruct (sweepBody_spec params bp' rpm st) as (op & Hop & Hbody).
    exists op. split; [exact Hop|]. intros pt Hcol.
    apply (collapsed_test params rpm op) in Hcol.
    cbn zeta in Hbody. rewrite Hcol in Hbody.
    apply (proj2 (js_le_true _ _)) in Hrpm.
    rewrite sweep_unfold, Hrpm, Hbody.
    eexists. split; [reflexivity|].
    cbn [pushPoint acc points]. f_equal.
    unfold recordBaseSpeed.
    destruct (vMagBase params bp' rpm <=? vLim params); [reflexivity|].
    destruct (baseSpeedFound st); reflexivity.
Qed.

(* ================================================================= *)
(** ** Voltage utilisation *)

Lemma vLim_pos (params : MotorParams) :
  0 < vdc params -> 0 < voltageUtilization params -> 0 < vLim params.
Proof.
  intros Hv Hu. unfold vLim.
  assert (0 < sqrt 3) by (apply sqrt_lt_R0; lra).
  apply Rmult_lt_0_compat; [|exact Hu].
  apply Rdiv_lt_0_compat; assumption.
Qed.

Lemma getVoltageMag_nonneg (params : MotorParams) (omega cId cIq : R) :
  0 <= getVoltageMag params omega cId cIq.
Proof. unfold getVoltageMag. apply sqrt_pos. Qed.

(** C8.  With a positive bus voltage and a positive utilisation ratio, every
    point of the result has a voltage index in [[0, 1]], and the index is
    [min(1, vMag / vLim)] for the voltage magnitude [vMag] of the point's own
    currents at the point's own speed. *)
Theorem voltage_index_in_unit_interval (params : MotorParams) :
  0 < vdc params ->
  0 < voltageUtilization params ->
  exists r,
    calculateMotorCharacteristics params = Some r
    /\ forall pt,
         In pt (points r) ->
         0 <= voltageIndex pt <= 1
         /\ voltageIndex pt
            = Rmin 1 (getVoltageMag params (omegaOf params (speedRPM pt))
                        (id pt) (iq pt)
                      / ((vdc params / sqrt 3) * voltageUtilization params)).
Proof.
  intros Hv Hu.
  destruct (characteristics_facts params)
    as (r & bp & n & found & Hr & _ & Hfacts & _ & _).
  destruct Hfacts as [_ Hprod _ _ _ _].
  exists r. split; [exact Hr|]. intros pt Hin.
  rewrite Forall_forall in Hprod. destruct (Hprod pt Hin) as (op & _ & Hpt).
  assert (voltageIndex pt
          = Rmin 1 (getVoltageMag params (omegaOf params (speedRPM pt))
                      (id pt) (iq pt) / vLim params)) as Hidx.
  { remember (speedRPM pt) as rpm eqn:Hrpm. clear Hrpm. subst pt.
    reflexivity. }
  split; [|exact Hidx]. rewrite Hidx.
  pose proof (vLim_pos params Hv Hu) as Hlim.
  pose proof (getVoltageMag_nonneg params (omegaOf params (speedRPM pt))
                (id pt) (iq pt)) as Hmag.
  split.
  - apply Rmin_glb; [lra|]. unfold Rdiv.
    apply Rmult_le_pos; [exact Hmag|]. left. apply Rinv_0_lt_compat, Hlim.
  - apply Rmin_l.
Qed.

Lemma voltage_index_in_unit_interval_witness :
  exists r,
    calculateMotorCharacteristics DEFAULT_PARAMS = Some r
    /\ forall pt,
         In pt (points r) ->
         0 <= voltageIndex pt <= 1
         /\ voltageIndex pt
            = Rmin 1 (getVoltageMag DEFAULT_PARAMS
                        (omegaOf DEFAULT_PARAMS (speedRPM pt)) (id pt) (iq pt)
                      / ((vdc DEFAULT_PARAMS / sqrt 3)
                         * voltageUtilization DEFAULT_PARAMS)).
Proof.
  apply (voltage_index_in_unit_interval DEFAULT_PARAMS); simpl; lra.
Defined.

(* ================================================================= *)
(** ** Base speed *)


(* ================================================================= *)
(** ** The base operating point *)

Lemma for_loop_ext {S : Type} (body1 body2 : R -> S -> S) (hi step : R) :
  (forall b s, body1 b s = body2 b s) ->
  forall (fuel : nat) (b : R) (s : S),
    for_loop fuel b hi step body1 s = for_loop fuel b hi step body2 s.
Proof.
  intros Hext fuel. induction fuel as [|fuel IH]; intros b s; simpl;
    [reflexivity|].
  destruct (b <=? hi); [|reflexivity]. rewrite Hext. apply IH.
Qed.

(** The base operating point reads the control strategy, the current limit,
    the pole pairs, the flux linkage and the inductances, and nothing else. *)
Lemma baseOperatingPoint_ext (params params' : MotorParams) :
  controlStrategy params' = controlStrategy params ->
  imax params' = imax params ->
  p params' = p params ->
  psif params' = psif params ->
  ld params' = ld params ->
  lq params' = lq params ->
  baseOperatingPoint params' = baseOperatingPoint params.
Proof.
  intros Hcs Hi Hp Hpsi Hld Hlq. unfold baseOperatingPoint. rewrite Hcs.
  assert (forall i rad, getTorque params' i rad = getTorque params i rad) as HT.
  { intros i rad. unfold getTorque. rewrite Hp, Hpsi, Hld, Hlq. reflexivity. }
  destruct (controlStrategy params).
  - apply for_loop_ext. intros b s. unfold mtpaScan. rewrite Hi, HT.
    reflexivity.
  - rewrite Hi, HT. reflexivity.
Qed.

Lemma scanAngle_0 : scanAngle 0 = 0.
Proof. unfold scanAngle. simpl. lra. Qed.

Lemma getTorque_0 (params : MotorParams) (i_mag : R) :
  getTorque params i_mag 0 = 1.5 * p params * (psif params * i_mag).
Proof. unfold getTorque. rewrite sin_0, cos_0. ring. Qed.

Lemma getTorque_no_current (params : MotorParams) (rad : R) :
  getTorque params 0 rad = 0.
Proof. unfold getTorque. ring. Qed.

Lemma INR_half_gt_90 (k : nat) : 90 < INR k * 0.5 -> (180 < k)%nat.
Proof.
  intros H. apply INR_lt. rewrite (INR_IZR_INZ 180). simpl. lra.
Qed.

Lemma INR_half_le_90 (k : nat) : INR k * 0.5 <= 90 -> (k <= 180)%nat.
Proof.
  intros H. apply INR_le. rewrite (INR_IZR_INZ 180). simpl. lra.
Qed.

(** The MTPA scan keeps the largest torque seen, if it is positive, and the
    angle of its first occurrence. *)
Lemma mtpa_scan_result (params : MotorParams) (bp : BasePoint) :
  controlStrategy params = MTPA ->
  baseOperatingPoint params = Some bp ->
  0 <= maxT_static bp
  /\ (forall j, (j <= 180)%nat ->
        getTorque params (imax params) (scanAngle j) <= maxT_static bp)
  /\ ((betaStart bp = 0 /\ maxT_static bp = 0)
      \/ (exists k, (k <= 180)%nat
            /\ betaStart bp = scanAngle k
            /\ maxT_static bp = getTorque params (imax params) (scanAngle k)
            /\ 0 < maxT_static bp)).
Proof.
  intros Hcs Hbp. unfold baseOperatingPoint in Hbp. rewrite Hcs in Hbp.
  apply (for_loop_invariant (mtpaScan params) 90 0.5
           (fun b s =>
              exists k, b = INR k * 0.5
                /\ 0 <= maxT_static s
                /\ (forall j, (j < k)%nat ->
                      getTorque params (imax params) (scanAngle j)
                      <= maxT_static s)
                /\ ((betaStart s = 0 /\ maxT_static s = 0)
                    \/ (exists i, (i <= 180)%nat
                          /\ betaStart s = scanAngle i
                          /\ maxT_static s
                             = getTorque params (imax params) (scanAngle i)
                          /\ 0 < maxT_static s)))) in Hbp.
  - destruct Hbp as (b' & Hexit & k & -> & Hpos & Hmax & Hshape).
    apply INR_half_gt_90 in Hexit.
    split; [exact Hpos|]. split; [|exact Hshape].
    intros j Hj. apply Hmax. lia.
  - intros b s (k & -> & Hpos & Hmax & Hshape) Hle.
    apply INR_half_le_90 in Hle.
    exists (S k). split; [rewrite S_INR; lra|].
    unfold mtpaScan. fold (scanAngle k).
    destruct (getTorque params (imax params) (scanAngle k) >? maxT_static s)
      eqn:Hgt.
    + apply js_gt_true in Hgt. cbn [maxT_static betaStart].
      split; [lra|]. split.
      * intros j Hj. assert (j < k \/ j = k)%nat as [Hlt| ->] by lia.
        -- specialize (Hmax j Hlt). lra.
        -- lra.
      * right. exists k. repeat split; [exact Hle|lra].
    + apply js_gt_false in Hgt. split; [exact Hpos|]. split; [|exact Hshape].
      intros j Hj. assert (j < k \/ j = k)%nat as [Hlt| ->] by lia.
      * apply Hmax, Hlt.
      * exact Hgt.
  - exists 0%nat. cbn [maxT_static betaStart INR]. split; [lra|].
    split; [lra|]. split; [intros j Hj; lia|]. left. split; reflexivity.
Qed.

(** C3.  For a parameter record in the ranges of the data model (pole pairs,
    flux linkage and current limit not negative), [maxTorque] is
    [1.5 * p * (psif * iq_base + (ld - lq) * id_base * iq_base)] at the base
    operating point: angle 0 under the Id=0 strategy; under MTPA an angle of
    the scan of 0..90 degrees in half degrees whose torque at [imax] no other
    angle of the scan exceeds.  With [imax = 0] the angle is 0 and the torque
    is 0.  The value is fixed before the sweep: a record that differs only in
    the fields the sweep reads (resistance, bus voltage, utilisation, sweep
    ceiling, flux weakening switch, motor type) has the same [maxTorque]. *)
Theorem max_torque_at_base_point (params : MotorParams) :
  0 <= p params ->
  0 <= psif params ->
  0 <= imax params ->
  exists r bp,
    calculateMotorCharacteristics params = Some r
    /\ baseOperatingPoint params = Some bp
    /\ (let id_base := - imax params * sin (betaStart bp) in
        let iq_base := imax params * cos (betaStart bp) in
        maxTorque r
        = 1.5 * p params
          * (psif params * iq_base
             + (ld params - lq params) * id_base * iq_base))
    /\ (controlStrategy params = IdZero -> betaStart bp = 0)
    /\ (controlStrategy params = MTPA ->
        exists k, (k <= 180)%nat
          /\ betaStart bp = scanAngle k
          /\ forall j, (j <= 180)%nat ->
               getTorque params (imax params) (scanAngle j)
               <= getTorque params (imax params) (betaStart bp))
    /\ (imax params = 0 -> betaStart bp = 0 /\ maxTorque r = 0)
    /\ (forall params',
          controlStrategy params' = controlStrategy params ->
          imax params' = imax params ->
          p params' = p params ->
          psif params' = psif params ->
          ld params' = ld params ->
          lq params' = lq params ->
          exists r',
            calculateMotorCharacteristics params' = Some r'
            /\ maxTorque r' = maxTorque r).
Proof.
  intros Hp Hpsi Hi.
  destruct (characteristics_facts params)
    as (r & bp & n & found & Hr & Hbp & Hfacts & _ & _).
  destruct Hfacts as [_ _ _ _ HmaxT _].
  exists r, bp. split; [exact Hr|]. split; [exact Hbp|].
  assert (0 <= getTorque params (imax params) 0) as HT0.
  { rewrite getTorque_0.
    apply Rmult_le_pos; [|apply Rmult_le_pos; assumption]. lra. }
  assert (maxT_static bp = getTorque params (imax params) (betaStart bp)
          /\ (controlStrategy params = IdZero -> betaStart bp = 0)
          /\ (controlStrategy params = MTPA ->
              exists k, (k <= 180)%nat
                /\ betaStart bp = scanAngle k
                /\ forall j, (j <= 180)%nat ->
                     getTorque params (imax params) (scanAngle j)
                     <= getTorque params (imax params) (betaStart bp))
          /\ (imax params = 0 -> betaStart bp = 0))
    as (Heq & Hzero & Hmtpa & Hnone).
  { destruct (controlStrategy params) eqn:Hcs.
    - destruct (mtpa_scan_result params bp Hcs Hbp)
        as (Hpos & Hmax & [[Hb Hm]|(k & Hk & Hb & Hm & Hgt)]).
      + pose proof (Hmax 0%nat ltac:(lia)) as H0.
        rewrite scanAngle_0 in H0.
        assert (maxT_static bp = getTorque params (imax params) (betaStart bp))
          as Heq by (rewrite Hb; lra).
        split; [exact Heq|]. split; [discriminate|]. split; [|auto].
        intros _. exists 0%nat. rewrite scanAngle_0.
        split; [lia|]. split; [exact Hb|].
        intros j Hj. rewrite <- Heq. apply Hmax, Hj.
      + split; [rewrite Hb; exact Hm|]. split; [discriminate|]. split.
        * intros _. exists k. split; [exact Hk|]. split; [exact Hb|].
          intros j Hj. rewrite Hb, <- Hm. apply Hmax, Hj.
        * intros Hnone. rewrite Hnone, getTorque_no_current in Hm. lra.
    - unfold baseOperatingPoint in Hbp. rewrite Hcs in Hbp.
      injection Hbp as <-. cbn [betaStart maxT_static].
      split; [reflexivity|]. split; [reflexivity|].
      split; [discriminate|reflexivity]. }
  split; [rewrite HmaxT, Heq; reflexivity|].
  split; [exact Hzero|]. split; [exact Hmtpa|]. split.
  - intros Hi0. split; [auto|].
    rewrite HmaxT, Heq, Hi0. apply getTorque_no_current.
  - intros params' Hcs' Hi' Hp' Hpsi' Hld' Hlq'.
    destruct (characteristics_facts params')
      as (r' & bp' & n' & found' & Hr' & Hbp' & Hfacts' & _ & _).
    destruct Hfacts' as [_ _ _ _ HmaxT' _].
    exists r'. split; [exact Hr'|].
    rewrite (baseOperatingPoint_ext params params') in Hbp' by assumption.
    rewrite HmaxT', HmaxT. congruence.
Qed.

Lemma max_torque_at_base_point_witness :
  let params := DEFAULT_PARAMS in
  exists r bp,
    calculateMotorCharacteristics params = Some r
    /\ baseOperatingPoint params = Some bp
    /\ (let id_base := - imax params * sin (betaStart bp) in
        let iq_base := imax params * cos (betaStart bp) in
        maxTorque r
        = 1.5 * p params
          * (psif params * iq_base
             + (ld params - lq params) * id_base * iq_base))
    /\ (controlStrategy params = IdZero -> betaStart bp = 0)
    /\ (controlStrategy params = MTPA ->
        exists k, (k <= 180)%nat
          /\ betaStart bp = scanAngle k
          /\ forall j, (j <= 180)%nat ->
               getTorque params (imax params) (scanAngle j)
               <= getTorque params (imax params) (betaStart bp))
    /\ (imax params = 0 -> betaStart bp = 0 /\ maxTorque r = 0)
    /\ (forall params',
          controlStrategy params' = controlStrategy params ->
          imax params' = imax params ->
          p params' = p params ->
          psif params' = psif params ->
          ld params' = ld params ->
          lq params' = lq params ->
          exists r',
            calculateMotorCharacteristics params' = Some r'
            /\ maxTorque r' = maxTorque r).
Proof.
  apply (max_torque_at_base_point DEFAULT_PARAMS); simpl; lra.
Defined.

(* ================================================================= *)
(** ** Region 2 with flux weakening *)

(** While every midpoint violates the limit the search only raises its lower
    bound: no solution is recorded. *)
Lemma angleSearch_none (params : MotorParams) (omega : R) :
  forall (n : nat) (s : AngleSearch),
    Forall (angleInfeasible params omega) (angleSearchMids n params omega s) ->
    foundSolution (repeat_loop n (angleSearchStep params omega) s)
    = foundSolution s.
Proof.
  intros n. induction n as [|n IH]; intros s Hall; [reflexivity|].
  cbn [angleSearchMids repeat_loop] in *.
  inversion Hall as [|mid mids Hmid Hrest]; subst.
  rewrite (IH _ Hrest). unfold angleSearchStep.
  unfold angleInfeasible in Hmid. apply js_le_false in Hmid.
  rewrite Hmid. reflexivity.
Qed.

Lemma fluxWeakening_none (params : MotorParams) (omega beta : R) :
  Forall (angleInfeasible params omega)
    (angleSearchMids 20 params omega (angleSearchInit beta)) ->
  fluxWeakening params omega beta
  = {| currentId := 0; currentIq := 0; currentBeta := beta |}.
Proof.
  intros Hall. unfold fluxWeakening.
  rewrite (angleSearch_none params omega 20 _ Hall). reflexivity.
Qed.

Lemma angleSearchMids_all (params : MotorParams) (omega : R) :
  (forall mid, angleInfeasible params omega mid) ->
  forall (n : nat) (s : AngleSearch),
    Forall (angleInfeasible params omega) (angleSearchMids n params omega s).
Proof.
  intros Hall n. induction n as [|n IH]; intros s; simpl; constructor; auto.
Qed.

(** At zero current the terminal voltage is the back-EMF. *)
Lemma getVoltageMag_no_current (params : MotorParams) (omega : R) :
  getVoltageMag params omega 0 0 = Rabs (omega * psif params).
Proof.
  unfold getVoltageMag. rewrite <- sqrt_Rsqr_abs. f_equal. unfold Rsqr. ring.
Qed.

(** The point pushed for the zero-current operating point. *)
Lemma simulationPoint_no_current (params : MotorParams) (rpm beta : R) :
  let pt := simulationPoint params rpm
              {| currentId := 0; currentIq := 0; currentBeta := beta |} in
  id pt = 0 /\ iq pt = 0 /\ torque pt = 0 /\ power pt = 0.
Proof.
  cbn. repeat split.
  - replace (1.5 * p params
             * (psif params * 0 + (ld params - lq params) * 0 * 0))
      with 0 by ring.
    apply Rmax_left. lra.
  - replace (1.5 * p params
             * (psif params * 0 + (ld params - lq params) * 0 * 0)
             * (rpm * 2 * PI / 60) / 1000)
      with 0 by (unfold Rdiv; ring).
    apply Rmax_left. lra.
Qed.

(** What region 2 with flux weakening leaves when no midpoint is feasible. *)
Lemma collapsed_region2_point (params : MotorParams) (bp : BasePoint)
    (pt : SimulationPoint) :
  enableFluxWeakening params = true ->
  producedAt params bp pt ->
  vLim params < vMagBase params bp (speedRPM pt) ->
  Forall (angleInfeasible params (omegaOf params (speedRPM pt)))
    (angleSearchMids 20 params (omegaOf params (speedRPM pt))
       (angleSearchInit (betaStart bp))) ->
  id pt = 0 /\ iq pt = 0 /\ torque pt = 0 /\ power pt = 0.
Proof.
  intros Hfw (op & Hop & Hpt) Hbase Hmids.
  unfold operatingPointAt in Hop.
  apply js_le_false in Hbase. rewrite Hbase, Hfw in Hop.
  rewrite (fluxWeakening_none _ _ _ Hmids) in Hop. injection Hop as <-.
  rewrite Hpt. apply simulationPoint_no_current.
Qed.

(** The voltage index of that point is the index of the back-EMF. *)
Lemma collapsed_region2_index (params : MotorParams) (bp : BasePoint)
    (pt : SimulationPoint) :
  enableFluxWeakening params = true ->
  producedAt params bp pt ->
  vLim params < vMagBase params bp (speedRPM pt) ->
  Forall (angleInfeasible params (omegaOf params (speedRPM pt)))
    (angleSearchMids 20 params (omegaOf params (speedRPM pt))
       (angleSearchInit (betaStart bp))) ->
  voltageIndex pt
  = Rmin 1 (Rabs (omegaOf params (speedRPM pt) * psif params) / vLim params).
Proof.
  intros Hfw (op & Hop & Hpt) Hbase Hmids.
  unfold operatingPointAt in Hop.
  apply js_le_false in Hbase. rewrite Hbase, Hfw in Hop.
  rewrite (fluxWeakening_none _ _ _ Hmids) in Hop. injection Hop as <-.
  rewrite <- getVoltageMag_no_current.
  remember (speedRPM pt) as rpm eqn:Hrpm. clear - Hpt. subst pt.
  reflexivity.
Qed.

(** C2, as amended.  With flux weakening enabled the sweep returns a result,
    and a point of it at whose speed the base point exceeds the voltage limit
    and none of the 20 midpoints of the angle search satisfies it has
    [id = 0] and [iq = 0], zero torque and zero power.  The voltage magnitude
    of that point is the back-EMF [|omega * psif|], and where the voltage
    limit is positive its voltage index is [min(1, |omega * psif| / vLim)]. *)
Theorem flux_weakening_collapse (params : MotorParams) :
  enableFluxWeakening params = true ->
  exists r bp,
    calculateMotorCharacteristics params = Some r
    /\ baseOperatingPoint params = Some bp
    /\ forall pt,
         In pt (points r) ->
         let omega := omegaOf params (speedRPM pt) in
         vLim params < vMagBase params bp (speedRPM pt) ->
         Forall (angleInfeasible params omega)
           (angleSearchMids 20 params omega (angleSearchInit (betaStart bp))) ->
         id pt = 0 /\ iq pt = 0 /\ torque pt = 0 /\ power pt = 0
         /\ getVoltageMag params omega (id pt) (iq pt)
            = Rabs (omega * psif params)
         /\ (0 < vLim params ->
             voltageIndex pt
             = Rmin 1 (Rabs (omega * psif params) / vLim params)).
Proof.
  intros Hfw.
  destruct (characteristics_facts params)
    as (r & bp & n & found & Hr & Hbp & Hfacts & _ & _).
  destruct Hfacts as [_ Hprod _ _ _ _]. rewrite Forall_forall in Hprod.
  exists r, bp. split; [exact Hr|]. split; [exact Hbp|].
  intros pt Hin omega Hbase Hmids.
  destruct (collapsed_region2_point params bp pt Hfw (Hprod pt Hin) Hbase Hmids)
    as (Hid & Hiq & Ht & Hpw).
  repeat (split; [assumption|]). split.
  - rewrite Hid, Hiq. apply getVoltageMag_no_current.
  - intros _.
    apply (collapsed_region2_index params bp pt Hfw (Hprod pt Hin) Hbase Hmids).
Qed.

Lemma flux_weakening_collapse_witness :
  let params := stalledParams in
  exists r bp,
    calculateMotorCharacteristics params = Some r
    /\ baseOperatingPoint params = Some bp
    /\ forall pt,
         In pt (points r) ->
         let omega := omegaOf params (speedRPM pt) in
         vLim params < vMagBase params bp (speedRPM pt) ->
         Forall (angleInfeasible params omega)
           (angleSearchMids 20 params omega (angleSearchInit (betaStart bp))) ->
         id pt = 0 /\ iq pt = 0 /\ torque pt = 0 /\ power pt = 0
         /\ getVoltageMag params omega (id pt) (iq pt)
            = Rabs (omega * psif params)
         /\ (0 < vLim params ->
             voltageIndex pt
             = Rmin 1 (Rabs (omega * psif params) / vLim params)).
Proof.
  apply (flux_weakening_collapse stalledParams). reflexivity.
Defined.

(** The stalled record: the sweep visits the speeds 0 and 10, and at speed 10
    no current angle at all satisfies the voltage limit. *)
Lemma stalled_stepRPM : stepRPM stalledParams = 10.
Proof.
  unfold stepRPM. apply Rmax_left.
  pose proof (Math_ceil_bounds (maxSpeed stalledParams / 100)) as [_ H].
  simpl in *. lra.
Qed.

Lemma PI_gt_3 : 3 < PI.
Proof. pose proof PI2_3_2. lra. Qed.

Lemma stalled_vLim : 0 < vLim stalledParams < 1.
Proof.
  split; [apply vLim_pos; simpl; lra|].
  unfold vLim. simpl.
  assert (1 < sqrt 3) as H.
  { rewrite <- sqrt_1 at 1. apply sqrt_lt_1; lra. }
  apply Rmult_lt_reg_r with (r := sqrt 3); [lra|]. field_simplify; lra.
Qed.

Lemma stalled_infeasible (mid : R) :
  angleInfeasible stalledParams (omegaOf stalledParams 10) mid.
Proof.
  unfold angleInfeasible. pose proof stalled_vLim as [_ Hlim].
  apply Rlt_trans with (r2 := 1); [exact Hlim|].
  unfold getVoltageMag, omegaOf. simpl.
  rewrite <- sqrt_1 at 1. apply sqrt_lt_1; [lra| |].
  - apply Rplus_le_le_0_compat; apply Rle_0_sqr.
  - pose proof PI_gt_3. pose proof (SIN_bound mid) as [Hlo Hhi].
    set (s := sin mid) in *. set (c := cos mid) in *.
    assert (2 < 10 * 2 * PI / 60 * 1 * (1 * (-1 * s) + 3)) as Hvq by nra.
    nra.
Qed.

Lemma stalled_second_point :
  exists r bp pt,
    calculateMotorCharacteristics stalledParams = Some r
    /\ baseOperatingPoint stalledParams = Some bp
    /\ In pt (points r)
    /\ producedAt stalledParams bp pt
    /\ speedRPM pt = 10.
Proof.
  destruct (characteristics_facts stalledParams)
    as (r & bp & n & found & Hr & Hbp & Hfacts & _ & Hexit).
  destruct Hfacts as [Hspeeds Hprod Hrange _ _ _].
  rewrite Forall_forall in Hprod, Hrange.
  assert (2 <= n)%nat as Hn.
  { unfold sweepExit in Hexit.
    destruct Hexit as [(l & pt & Hl & Hcol)|[Hexit _]].
    - destruct Hcol as [Hfast _].
      assert (In pt (points r)) as Hin
        by (rewrite Hl; apply in_or_app; right; left; reflexivity).
      specialize (Hrange pt Hin). simpl in Hrange. lra.
    - unfold sweptSpeed in Hexit. rewrite stalled_stepRPM in Hexit.
      simpl in Hexit. destruct n as [|[|n]]; [simpl in Hexit; lra| |lia].
      simpl in Hexit. lra. }
  pose proof (f_equal (@length R) Hspeeds) as Hlen.
  rewrite !length_map, length_seq in Hlen.
  destruct (points r) as [|a [|b rest]] eqn:Hpts; simpl in Hlen; try lia.
  assert (In b (a :: b :: rest)) as Hin by (right; left; reflexivity).
  exists r, bp, b. rewrite Hpts.
  split; [exact Hr|]. split; [exact Hbp|]. split; [exact Hin|].
  split; [apply Hprod, Hin|].
  rewrite (speed_at_position stalledParams n (a :: b :: rest) [a] rest b Hspeeds)
    by reflexivity.
  unfold sweptSpeed. rewrite stalled_stepRPM. simpl. lra.
Qed.

(** C2, as stated, fails: on the stalled record the point at 10 RPM comes from
    an angle search none of whose midpoints is feasible, its currents and its
    torque are zero, and yet its voltage magnitude is not zero (it is the
    back-EMF, and the voltage index is 1). *)
Lemma flux_weakening_collapse_voltage_not_zero :
  exists r bp pt,
    calculateMotorCharacteristics stalledParams = Some r
    /\ baseOperatingPoint stalledParams = Some bp
    /\ In pt (points r)
    /\ enableFluxWeakening stalledParams = true
    /\ vLim stalledParams < vMagBase stalledParams bp (speedRPM pt)
    /\ Forall (angleInfeasible stalledParams
                 (omegaOf stalledParams (speedRPM pt)))
         (angleSearchMids 20 stalledParams
            (omegaOf stalledParams (speedRPM pt))
            (angleSearchInit (betaStart bp)))
    /\ id pt = 0 /\ iq pt = 0 /\ torque pt = 0
    /\ getVoltageMag stalledParams (omegaOf stalledParams (speedRPM pt))
         (id pt) (iq pt) <> 0
    /\ voltageIndex pt = 1.
Proof.
  destruct stalled_second_point as (r & bp & pt & Hr & Hbp & Hin & Hprod & Hspeed).
  exists r, bp, pt.
  split; [exact Hr|]. split; [exact Hbp|]. split; [exact Hin|].
  split; [reflexivity|]. rewrite Hspeed in *.
  assert (vLim stalledParams < vMagBase stalledParams bp 10) as Hbase
    by apply stalled_infeasible.
  assert (Forall (angleInfeasible stalledParams (omegaOf stalledParams 10))
            (angleSearchMids 20 stalledParams (omegaOf stalledParams 10)
               (angleSearchInit (betaStart bp)))) as Hmids
    by (apply angleSearchMids_all, stalled_infeasible).
  split; [exact Hbase|]. split; [exact Hmids|].
  rewrite <- Hspeed in Hbase, Hmids.
  destruct (collapsed_region2_point stalledParams bp pt eq_refl Hprod Hbase
              Hmids) as (Hid & Hiq & Ht & _).
  repeat (split; [assumption|]).
  assert (getVoltageMag stalledParams (omegaOf stalledParams 10) (id pt) (iq pt)
          = PI) as Hmag.
  { rewrite Hid, Hiq, getVoltageMag_no_current.
    unfold omegaOf. simpl. pose proof PI_gt_3.
    rewrite Rabs_right by lra. lra. }
  split; [rewrite Hmag; pose proof PI_gt_3; lra|].
  destruct Hprod as (op & _ & Hpt).
  assert (voltageIndex pt
          = Rmin 1 (getVoltageMag stalledParams
                      (omegaOf stalledParams (speedRPM pt)) (id pt) (iq pt)
                    / vLim stalledParams)) as ->.
  { remember (speedRPM pt) as rpm eqn:Hrpm. clear - Hpt. subst pt.
    reflexivity. }
  rewrite Hspeed, Hmag. apply Rmin_left.
  pose proof stalled_vLim as [Hpos Hlt]. pose proof PI_gt_3.
  apply Rmult_le_reg_r with (r := vLim stalledParams); [exact Hpos|].
  field_simplify; lra.
Qed.

(* ================================================================= *)
(** ** The Id=0 strategy *)

Lemma baseOperatingPoint_IdZero (params : MotorParams) (bp : BasePoint) :
  controlStrategy params = IdZero ->
  baseOperatingPoint params = Some bp ->
  betaStart bp = 0.
Proof.
  intros Hcs Hbp. unfold baseOperatingPoint in Hbp. rewrite Hcs in Hbp.
  injection Hbp as <-. reflexivity.
Qed.

(** At standstill the voltage is the resistive drop, whatever the angle. *)
Lemma getVoltageMag_standstill (params : MotorParams) (mid : R) :
  getVoltageMag params (omegaOf params 0)
    (- imax params * sin mid) (imax params * cos mid)
  = Rabs (rs params * imax params).
Proof.
  unfold getVoltageMag, omegaOf. rewrite <- sqrt_Rsqr_abs. f_equal.
  pose proof (sin2_cos2 mid) as H. unfold Rsqr in *.
  set (s := sin mid) in *. set (c := cos mid) in *.
  replace (0 * 2 * PI / 60 * p params) with 0 by (unfold Rdiv; ring).
  transitivity (rs params * imax params * (rs params * imax params)
                * (s * s + c * c)); [ring|].
  rewrite H. ring.
Qed.

Lemma naturalCharacteristic_IdZero (params : MotorParams) (omega : R)
    (op : OperatingPoint) :
  controlStrategy params = IdZero ->
  naturalCharacteristic params omega = Some op ->
  currentId op = 0 /\ currentBeta op = 0.
Proof.
  intros Hcs Hop. unfold naturalCharacteristic in Hop.
  destruct (repeat_loop_opt 15 _ _) as [s|] eqn:Hrun; [|discriminate].
  injection Hop as <-. cbn [currentId currentBeta].
  revert Hrun.
  apply (repeat_loop_opt_invariant (magnitudeSearchStep params omega)
           (fun s => validId s = 0 /\ validBeta s = 0));
    [|split; reflexivity].
  intros s0 s1 [Hid Hbeta] Hstep. unfold magnitudeSearchStep, trialAngle in Hstep.
  rewrite Hcs in Hstep.
  destruct (_ <=? _); injection Hstep as <-; cbn [validId validBeta].
  - rewrite sin_0. split; [ring|reflexivity].
  - auto.
Qed.

Lemma operatingPoint_IdZero (params : MotorParams) (bp : BasePoint) (rpm : R)
    (op : OperatingPoint) :
  controlStrategy params = IdZero ->
  betaStart bp = 0 ->
  operatingPointAt params bp rpm = Some op ->
  (baseFeasible params bp rpm -> currentId op = 0)
  /\ (enableFluxWeakening params = false ->
      currentId op = 0 /\ currentBeta op = 0)
  /\ (rpm = 0 -> currentId op = 0).
Proof.
  intros Hcs Hbeta Hop. unfold operatingPointAt in Hop.
  destruct (vMagBase params bp rpm <=? vLim params) eqn:Hfeas.
  - injection Hop as <-. cbn [currentId currentBeta].
    rewrite Hbeta, sin_0.
    repeat split; intros; try reflexivity; ring.
  - apply js_le_false in Hfeas.
    destruct (enableFluxWeakening params) eqn:Hfw.
    + injection Hop as <-. split; [|split; [discriminate|]].
      * unfold baseFeasible. lra.
      * intros ->.
        assert (forall mid, angleInfeasible params (omegaOf params 0) mid)
          as Hall.
        { intros mid. unfold angleInfeasible.
          rewrite getVoltageMag_standstill.
          unfold vMagBase in Hfeas.
          rewrite getVoltageMag_standstill in Hfeas. exact Hfeas. }
        rewrite fluxWeakening_none by (apply angleSearchMids_all, Hall).
        reflexivity.
    + destruct (naturalCharacteristic_IdZero params _ op Hcs Hop) as [Hid Hb].
      repeat split; auto.
Qed.

Lemma sweptSpeed_le (params : MotorParams) (i j : nat) :
  (i <= j)%nat -> sweptSpeed params i <= sweptSpeed params j.
Proof.
  intros Hij. assert (i = j \/ i < j)%nat as [->|Hlt] by lia; [lra|].
  left. apply sweptSpeed_lt, Hlt.
Qed.

(** A point is not slower than the points before it. *)
Lemma later_points_faster (params : MotorParams) (n : nat)
    (pts l1 l2 : list SimulationPoint) (q pt : SimulationPoint) :
  map speedRPM pts = map (sweptSpeed params) (seq 0 n) ->
  pts = l1 ++ q :: l2 ->
  In pt (q :: l2) ->
  speedRPM q <= speedRPM pt.
Proof.
  intros Hspeeds Hpts Hin. apply in_split in Hin.
  destruct Hin as (l3 & l4 & Hsplit).
  rewrite (speed_at_position params n pts l1 l2 q Hspeeds Hpts).
  rewrite (speed_at_position params n pts (l1 ++ l3) l4 pt Hspeeds)
    by (rewrite Hpts, Hsplit, <- app_assoc; reflexivity).
  apply sweptSpeed_le. rewrite length_app. lia.
Qed.

(** Under Id=0: the base speed and the speeds are not negative, the points at
    or below the base speed have no d-axis current, and without flux weakening
    no point has any, nor a current angle. *)
Lemma zero_d_facts (params : MotorParams) :
  controlStrategy params = IdZero ->
  exists r,
    calculateMotorCharacteristics params = Some r
    /\ 0 <= baseSpeed r
    /\ (0 <= maxSpeed params -> points r <> [])
    /\ forall pt,
         In pt (points r) ->
         0 <= speedRPM pt
         /\ (speedRPM pt <= baseSpeed r -> id pt = 0)
         /\ (enableFluxWeakening params = false ->
             id pt = 0 /\ currentAngle pt = 0).
Proof.
  intros Hcs.
  destruct (characteristics_facts params)
    as (r & bp & n & found & Hr & Hbp & Hfacts & Hn & _).
  destruct Hfacts as [Hspeeds Hprod _ _ _ Hbase].
  rewrite Forall_forall in Hprod.
  pose proof (baseOperatingPoint_IdZero params bp Hcs Hbp) as Hbeta.
  pose proof (stepRPM_ge_10 params) as Hstep.
  exists r. split; [exact Hr|]. split; [|split].
  - destruct Hbase as [(_ & -> & _)|(_ & l1 & q & l2 & _ & _ & _ & ->)];
      [lra|apply Rmax_l].
  - intros Hmax Hnil. specialize (Hn Hmax). rewrite Hnil in Hspeeds.
    destruct n; [lia|discriminate].
  - intros pt Hin.
    destruct (Hprod pt Hin) as (op & Hop & Hpt).
    destruct (operatingPoint_IdZero params bp (speedRPM pt) op Hcs Hbeta Hop)
      as (Hfeas & Hnofw & Hstill).
    assert (id pt = currentId op) as Hid by (rewrite Hpt; reflexivity).
    assert (currentAngle pt = currentBeta op * 180 / PI) as Hangle
      by (rewrite Hpt; reflexivity).
    assert (0 <= speedRPM pt) as Hpos.
    { assert (In (speedRPM pt) (map speedRPM (points r))) as Hs
        by (apply in_map, Hin).
      rewrite Hspeeds in Hs. apply in_map_iff in Hs.
      destruct Hs as (k & <- & _). apply sweptSpeed_nonneg. }
    split; [exact Hpos|]. split.
    + intros Hle. rewrite Hid.
      destruct Hbase as [(_ & _ & Hall)|(_ & l1 & q & l2 & Hl & H1 & Hq & Hb)].
      * rewrite Forall_forall in Hall. apply Hfeas, Hall, Hin.
      * rewrite Hl in Hin. apply in_app_or in Hin. destruct Hin as [Hin|Hin].
        -- rewrite Forall_forall in H1. apply Hfeas, H1, Hin.
        -- pose proof (later_points_faster params n _ l1 l2 q pt Hspeeds Hl Hin)
             as Hlater.
           rewrite Hb in Hle. apply Hstill.
           unfold Rmax in Hle.
           destruct (Rle_dec 0 (speedRPM q - stepRPM params)); lra.
    + intros Hfw. destruct (Hnofw Hfw) as [H1 H2].
      rewrite Hid, Hangle, H1, H2. split; [reflexivity|].
      unfold Rdiv. ring.
Qed.

(** C9, as amended.  Under the Id=0 strategy a point has a negative [id] only
    if flux weakening is enabled and its speed exceeds the base speed; every
    point at or below the base speed has [id = 0]; and with flux weakening
    disabled every point has [id = 0] and current angle 0. *)
Theorem zero_d_current_only_when_weakening (params : MotorParams) :
  controlStrategy params = IdZero ->
  exists r,
    calculateMotorCharacteristics params = Some r
    /\ forall pt,
         In pt (points r) ->
         (id pt < 0 ->
          enableFluxWeakening params = true /\ baseSpeed r < speedRPM pt)
         /\ (speedRPM pt <= baseSpeed r -> id pt = 0)
         /\ (enableFluxWeakening params = false ->
             id pt = 0 /\ currentAngle pt = 0).
Proof.
  intros Hcs. destruct (zero_d_facts params Hcs) as (r & Hr & _ & _ & Hpts).
  exists r. split; [exact Hr|]. intros pt Hin.
  destruct (Hpts pt Hin) as (_ & Hbelow & Hnofw).
  split; [|split; assumption].
  intros Hneg. split.
  - destruct (enableFluxWeakening params); [reflexivity|].
    destruct (Hnofw eq_refl) as [Hid _]. lra.
  - destruct (Rlt_le_dec (baseSpeed r) (speedRPM pt)) as [Hlt|Hle];
      [exact Hlt|].
    specialize (Hbelow Hle). lra.
Qed.

Lemma zero_d_current_only_when_weakening_witness :
  let params := with_mode IdZero true DEFAULT_PARAMS in
  exists r,
    calculateMotorCharacteristics params = Some r
    /\ forall pt,
         In pt (points r) ->
         (id pt < 0 ->
          enableFluxWeakening params = true /\ baseSpeed r < speedRPM pt)
         /\ (speedRPM pt <= baseSpeed r -> id pt = 0)
         /\ (enableFluxWeakening params = false ->
             id pt = 0 /\ currentAngle pt = 0).
Proof.
  apply (zero_d_current_only_when_weakening
           (with_mode IdZero true DEFAULT_PARAMS)).
  reflexivity.
Defined.

(** C9, as stated, fails: on the default motor under Id=0 with flux weakening
    disabled the result has a point whose [id] is 0, hence [<= 0], although
    flux weakening is not active. *)
Lemma zero_d_current_nonpositive_without_weakening :
  let params := with_mode IdZero false DEFAULT_PARAMS in
  exists r pt,
    calculateMotorCharacteristics params = Some r
    /\ In pt (points r)
    /\ id pt <= 0
    /\ ~ (enableFluxWeakening params = true /\ baseSpeed r < speedRPM pt).
Proof.
  cbn zeta.
  destruct (zero_d_facts (with_mode IdZero false DEFAULT_PARAMS) eq_refl)
    as (r & Hr & _ & Hne & Hpts).
  destruct (points r) as [|pt rest] eqn:Hl.
  - exfalso. apply Hne; [simpl; lra|reflexivity].
  - exists r, pt. rewrite Hl. split; [exact Hr|].
    split; [left; reflexivity|].
    destruct (Hpts pt (or_introl eq_refl)) as (_ & _ & Hnofw).
    destruct (Hnofw eq_refl) as [Hid _].
    split; [lra|]. intros [Hfw _]. discriminate.
Qed.

(* ================================================================= *)
(** ** Further properties of the sweep *)

(** Every point of the result is the point of the operating point at its own
    speed. *)
Lemma result_points_produced (params : MotorParams) :
  exists r bp,
    calculateMotorCharacteristics params = Some r
    /\ baseOperatingPoint params = Some bp
    /\ maxTorque r = maxT_static bp
    /\ forall pt, In pt (points r) -> producedAt params bp pt.
Proof.
  destruct (characteristics_facts params)
    as (r & bp & n & found & Hr & Hbp & Hfacts & _ & _).
  destruct Hfacts as [_ Hprod _ _ HmaxT _].
  rewrite Forall_forall in Hprod. exists r, bp. auto.
Qed.

(** Invariant rule for the locals of the sweep: a property of the state that
    holds of the fresh locals and is kept by recording the base speed and by
    pushing the point of an operating point holds of the returned state. *)
Lemma sweep_state_invariant (params : MotorParams) (bp : BasePoint)
    (Inv : SweepState -> Prop) :
  Inv (sweepInit bp) ->
  (forall rpm st, Inv st -> Inv (recordBaseSpeed params rpm st)) ->
  (forall rpm op st,
      operatingPointAt params bp rpm = Some op ->
      Inv st -> Inv (pushPoint (simulationPoint params rpm op) st)) ->
  forall (fuel : nat) (rpm : R) (st st' : SweepState),
    Inv st -> sweep fuel params bp rpm st = Some st' -> Inv st'.
Proof.
  intros Hinit Hrec Hpush fuel rpm st st' Hst Hrun.
  assert (forall rpm0 s f,
             Inv s -> sweepBody params bp rpm0 s = Some f ->
             match f with Continue s' | Break s' => Inv s' end) as Hbody.
  { intros rpm0 s f Hs Hf.
    destruct (sweepBody_spec params bp rpm0 s) as (op & Hop & Hspec).
    cbn zeta in Hspec. rewrite Hspec in Hf. injection Hf as <-.
    assert (Inv (pushPoint (simulationPoint params rpm0 op)
                   (if vMagBase params bp rpm0 <=? vLim params then s
                    else recordBaseSpeed params rpm0 s))) as Hnext.
    { apply Hpush; [exact Hop|]. destruct (_ <=? _); auto. }
    destruct (_ && _); exact Hnext. }
  revert Hrun.
  apply (sweep_invariant params bp (fun _ s => Inv s) Inv)
    with (fuel := fuel) (rpm := rpm) (st := st); auto.
  - intros rpm0 s s' Hs _ Hf. apply (Hbody rpm0 s _ Hs Hf).
  - intros rpm0 s s' Hs _ Hf. apply (Hbody rpm0 s _ Hs Hf).
Qed.

Lemma characteristics_state (params : MotorParams) (r : SimulationResult) :
  calculateMotorCharacteristics params = Some r ->
  exists bp st,
    baseOperatingPoint params = Some bp
    /\ sweep sweepFuel params bp 0 (sweepInit bp) = Some st
    /\ r = acc st.
Proof.
  unfold calculateMotorCharacteristics. intros Hr.
  destruct (baseOperatingPoint params) as [bp|]; [|discriminate].
  fold (sweepInit bp) in Hr.
  destruct (sweep sweepFuel params bp 0 (sweepInit bp)) as [st|] eqn:Hrun;
    [|discriminate].
  injection Hr as <-. eauto.
Qed.

Lemma points_length (params : MotorParams) (n : nat)
    (pts : list SimulationPoint) :
  map speedRPM pts = map (sweptSpeed params) (seq 0 n) -> length pts = n.
Proof.
  intros H. apply (f_equal (@length R)) in H.
  rewrite !length_map, length_seq in H. exact H.
Qed.

(** Clamping: no point has a negative torque or a negative power, every speed
    lies between 0 and the sweep ceiling, and the first point, at standstill,
    has power 0. *)
Theorem points_clamped (params : MotorParams) :
  exists r,
    calculateMotorCharacteristics params = Some r
    /\ (forall pt,
          In pt (points r) ->
          0 <= torque pt /\ 0 <= power pt
          /\ 0 <= speedRPM pt <= maxSpeed params)
    /\ (forall pt rest,
          points r = pt :: rest -> speedRPM pt = 0 /\ power pt = 0).
Proof.
  destruct (characteristics_facts params)
    as (r & bp & n & found & Hr & Hbp & Hfacts & _ & _).
  destruct Hfacts as [Hspeeds Hprod Hrange _ _ _].
  rewrite Forall_forall in Hprod, Hrange.
  assert (forall pt, In pt (points r) -> 0 <= torque pt /\ 0 <= power pt)
    as Hclamp.
  { intros pt Hin. destruct (Hprod pt Hin) as (op & _ & ->).
    split; apply Rmax_l. }
  exists r. split; [exact Hr|]. split.
  - intros pt Hin. destruct (Hclamp pt Hin) as [Ht Hp].
    repeat split; auto.
    assert (In (speedRPM pt) (map speedRPM (points r))) as Hs
      by (apply in_map, Hin).
    rewrite Hspeeds in Hs. apply in_map_iff in Hs.
    destruct Hs as (k & <- & _). apply sweptSpeed_nonneg.
  - intros pt rest Hpts.
    assert (speedRPM pt = 0) as Hzero.
    { rewrite (speed_at_position params n (points r) [] rest pt Hspeeds Hpts).
      apply sweptSpeed_0. }
    split; [exact Hzero|].
    assert (In pt (points r)) as Hin by (rewrite Hpts; left; reflexivity).
    destruct (Hprod pt Hin) as (op & _ & Hpt).
    rewrite Hzero in Hpt. rewrite Hpt. cbn [power simulationPoint].
    match goal with
    | |- Rmax 0 ?x = 0 => replace x with 0 by (unfold Rdiv; ring)
    end.
    apply Rmax_left. lra.
Qed.

(** The sweep pushes at most 101 points. *)
Theorem sweep_at_most_101_points (params : MotorParams) :
  exists r,
    calculateMotorCharacteristics params = Some r
    /\ (length (points r) <= 101)%nat.
Proof.
  destruct (characteristics_facts params)
    as (r & bp & n & found & Hr & Hbp & Hfacts & _ & _).
  destruct Hfacts as [Hspeeds _ Hrange _ _ _].
  rewrite Forall_forall in Hrange.
  exists r. split; [exact Hr|].
  destruct (points r) as [|a l] eqn:Hpts; [simpl; lia|].
  destruct (exists_last (l := a :: l)) as (front & pt & Hlast);
    [discriminate|].
  rewrite Hlast in *.
  pose proof (speed_at_position params n _ front [] pt Hspeeds eq_refl)
    as Hspeed.
  assert (In pt (front ++ [pt])) as Hin
    by (apply in_or_app; right; left; reflexivity).
  specialize (Hrange pt Hin). rewrite Hspeed in Hrange.
  pose proof (stepRPM_covers params). pose proof (stepRPM_ge_10 params).
  unfold sweptSpeed in Hrange.
  assert (INR (length front) <= INR 100) as Hle.
  { rewrite (INR_IZR_INZ 100). simpl. nra. }
  apply INR_le in Hle. rewrite length_app. simpl. lia.
Qed.

Lemma recordBaseSpeed_keeps (params : MotorParams) (rpm : R) (st : SweepState) :
  points (acc (recordBaseSpeed params rpm st)) = points (acc st)
  /\ maxPower (acc (recordBaseSpeed params rpm st)) = maxPower (acc st)
  /\ maxTorque (acc (recordBaseSpeed params rpm st)) = maxTorque (acc st).
Proof.
  unfold recordBaseSpeed. destruct (baseSpeedFound st); auto.
Qed.

(** [maxPower] is the peak of the power column: no point has more power, and
    unless the sequence is empty some point has exactly that power. *)
Theorem max_power_is_peak (params : MotorParams) :
  exists r,
    calculateMotorCharacteristics params = Some r
    /\ (forall pt, In pt (points r) -> power pt <= maxPower r)
    /\ ((points r = [] /\ maxPower r = 0)
        \/ exists pt, In pt (points r) /\ power pt = maxPower r).
Proof.
  destruct (calculateMotorCharacteristics_total params) as [r Hr].
  exists r. split; [exact Hr|].
  destruct (characteristics_state params r Hr) as (bp & st & _ & Hrun & ->).
  revert Hrun.
  apply (sweep_state_invariant params bp
           (fun s =>
              (forall pt, In pt (points (acc s)) ->
                          power pt <= maxPower (acc s))
              /\ ((points (acc s) = [] /\ maxPower (acc s) = 0)
                  \/ exists pt, In pt (points (acc s))
                                /\ power pt = maxPower (acc s)))).
  - cbn. split; [intros pt []|left; auto].
  - intros rpm s Hs.
    destruct (recordBaseSpeed_keeps params rpm s) as (-> & -> & _). exact Hs.
  - intros rpm op s _ [Hle Hpeak].
    set (pt := simulationPoint params rpm op).
    cbn [pushPoint acc points maxPower].
    destruct (power pt >? maxPower (acc s)) eqn:Hgt.
    + apply js_gt_true in Hgt. split.
      * intros q Hq. apply in_app_or in Hq. destruct Hq as [Hq|[<-|[]]].
        -- specialize (Hle q Hq). lra.
        -- lra.
      * right. exists pt. split; [|reflexivity].
        apply in_or_app. right. left. reflexivity.
    + apply js_gt_false in Hgt. split.
      * intros q Hq. apply in_app_or in Hq. destruct Hq as [Hq|[<-|[]]].
        -- apply Hle, Hq.
        -- exact Hgt.
      * right. destruct Hpeak as [[Hnil Hzero]|(q & Hq & Heq)].
        -- exists pt. split; [apply in_or_app; right; left; reflexivity|].
           assert (0 <= power pt) by apply Rmax_l. lra.
        -- exists q. split; [apply in_or_app; left; exact Hq|exact Heq].
  - cbn. split; [intros pt []|left; auto].
Qed.

(* ================================================================= *)
(** ** The constant torque region *)

(** The base speed is never negative.  When it is positive it is the speed of
    a point of the result at which the base operating point satisfies the
    voltage limit, the point right after it is the first at which it does not,
    and the base point satisfies the limit at every point up to the base
    speed. *)
Theorem base_speed_is_last_feasible (params : MotorParams) :
  exists r bp,
    calculateMotorCharacteristics params = Some r
    /\ baseOperatingPoint params = Some bp
    /\ 0 <= baseSpeed r
    /\ (0 < baseSpeed r ->
        (exists l1 a b l2,
            points r = l1 ++ a :: b :: l2
            /\ speedRPM a = baseSpeed r
            /\ Forall (fun q => vMagBase params bp (speedRPM q) <= vLim params)
                 (l1 ++ [a])
            /\ vLim params < vMagBase params bp (speedRPM b))
        /\ forall pt,
             In pt (points r) -> speedRPM pt <= baseSpeed r ->
             vMagBase params bp (speedRPM pt) <= vLim params).
Proof.
  destruct (characteristics_facts params)
    as (r & bp & n & found & Hr & Hbp & Hfacts & _ & _).
  destruct Hfacts as [Hspeeds _ _ _ _ Hbase].
  pose proof (stepRPM_ge_10 params) as Hstep.
  exists r, bp. split; [exact Hr|]. split; [exact Hbp|].
  destruct Hbase as [(_ & Hb & Hall)|(_ & l1 & q & l2 & Hl & H1 & Hq & Hb)].
  - split; [lra|]. intros Hpos. lra.
  - split; [rewrite Hb; apply Rmax_l|]. intros Hpos.
    pose proof (speed_at_position params n _ l1 l2 q Hspeeds Hl) as Hsq.
    assert (baseSpeed r = speedRPM q - stepRPM params) as Hb'.
    { rewrite Hb in Hpos |- *. unfold Rmax in *.
      destruct (Rle_dec 0 (speedRPM q - stepRPM params)); lra. }
    destruct l1 as [|a0 l1'] using rev_ind.
    { rewrite Hsq, sweptSpeed_0 in Hb'. lra. }
    clear IHl1'. rename a0 into a.
    assert (speedRPM a = baseSpeed r) as Ha.
    { rewrite (speed_at_position params n _ l1' (q :: l2) a Hspeeds)
        by (rewrite Hl, <- app_assoc; reflexivity).
      rewrite Hb', Hsq, length_app, Nat.add_comm. cbn [length Nat.add].
      rewrite sweptSpeed_S. lra. }
    split.
    + exists l1', a, q, l2. rewrite Hl, <- app_assoc.
      repeat split; auto. unfold baseFeasible in Hq. lra.
    + intros pt Hin Hle. rewrite Hl in Hin. apply in_app_or in Hin.
      destruct Hin as [Hin|Hin].
      * rewrite Forall_forall in H1. apply H1, Hin.
      * pose proof (later_points_faster params n _ _ l2 q pt Hspeeds Hl Hin).
        lra.
Qed.

(** The base angle lies between 0 and 90 degrees. *)
Lemma betaStart_range (params : MotorParams) (bp : BasePoint) :
  baseOperatingPoint params = Some bp -> 0 <= betaStart bp <= PI / 2.
Proof.
  intros Hbp. pose proof PI_RGT_0 as Hpi.
  destruct (controlStrategy params) eqn:Hcs.
  - destruct (mtpa_scan_result params bp Hcs Hbp)
      as (_ & _ & [[-> _]|(k & Hk & -> & _)]); [lra|].
    unfold scanAngle. pose proof (pos_INR k) as H0.
    apply le_INR in Hk. rewrite (INR_IZR_INZ 180) in Hk. simpl in Hk.
    split; [|nra]. apply Rmult_le_pos; [|lra].
    apply Rmult_le_pos; [|lra]. apply Rmult_le_pos; lra.
  - rewrite (baseOperatingPoint_IdZero params bp Hcs Hbp). lra.
Qed.

(** The torque of the base point is the torque at the base angle, and it is
    not negative. *)
Lemma maxT_static_at_betaStart (params : MotorParams) (bp : BasePoint) :
  0 <= p params -> 0 <= psif params -> 0 <= imax params ->
  baseOperatingPoint params = Some bp ->
  maxT_static bp = getTorque params (imax params) (betaStart bp)
  /\ 0 <= maxT_static bp.
Proof.
  intros Hp Hpsi Hi Hbp.
  assert (0 <= getTorque params (imax params) 0) as HT0.
  { rewrite getTorque_0.
    apply Rmult_le_pos; [|apply Rmult_le_pos; assumption]. lra. }
  destruct (controlStrategy params) eqn:Hcs.
  - destruct (mtpa_scan_result params bp Hcs Hbp)
      as (Hpos & Hmax & [[Hb Hm]|(k & Hk & Hb & Hm & Hgt)]).
    + split; [|exact Hpos].
      pose proof (Hmax 0%nat ltac:(lia)) as H0.
      rewrite scanAngle_0 in H0. rewrite Hb. lra.
    + split; [rewrite Hb; exact Hm|exact Hpos].
  - unfold baseOperatingPoint in Hbp. rewrite Hcs in Hbp.
    injection Hbp as <-. cbn [betaStart maxT_static]. auto.
Qed.

(** Constant torque region.  At every point where the base operating point
    satisfies the voltage limit (every point up to a positive base speed among
    them) the currents are the base currents, of magnitude [imax] at the base
    angle, and the torque is [maxTorque]. *)
Theorem constant_torque_region (params : MotorParams) :
  0 <= p params -> 0 <= psif params -> 0 <= imax params ->
  exists r bp,
    calculateMotorCharacteristics params = Some r
    /\ baseOperatingPoint params = Some bp
    /\ forall pt,
         In pt (points r) ->
         vMagBase params bp (speedRPM pt) <= vLim params ->
         torque pt = maxTorque r
         /\ id pt = - imax params * sin (betaStart bp)
         /\ iq pt = imax params * cos (betaStart bp)
         /\ currentAngle pt = betaStart bp * 180 / PI
         /\ currentSq pt = imax params * imax params.
Proof.
  intros Hp Hpsi Hi.
  destruct (result_points_produced params) as (r & bp & Hr & Hbp & HmaxT & Hprod).
  destruct (maxT_static_at_betaStart params bp Hp Hpsi Hi Hbp) as [Heq Hpos].
  exists r, bp. split; [exact Hr|]. split; [exact Hbp|].
  intros pt Hin Hfeas. destruct (Hprod pt Hin) as (op & Hop & Hpt).
  unfold operatingPointAt in Hop.
  apply (proj2 (js_le_true _ _)) in Hfeas. rewrite Hfeas in Hop.
  injection Hop as <-.
  remember (speedRPM pt) as rpm eqn:Hrpm. clear Hrpm. subst pt.
  unfold currentSq. cbn [simulationPoint torque id iq currentAngle
                          currentId currentIq currentBeta].
  split; [|repeat split].
  - rewrite HmaxT, Heq. unfold getTorque in *. rewrite <- Heq.
    apply Rmax_right. exact Hpos.
  - pose proof (sin2_cos2 (betaStart bp)) as H. unfold Rsqr in H.
    set (s := sin (betaStart bp)) in *. set (c := cos (betaStart bp)) in *.
    transitivity (imax params * imax params * (s * s + c * c)); [ring|].
    rewrite H. ring.
Qed.

Lemma constant_torque_region_witness :
  let params := DEFAULT_PARAMS in
  exists r bp,
    calculateMotorCharacteristics params = Some r
    /\ baseOperatingPoint params = Some bp
    /\ forall pt,
         In pt (points r) ->
         vMagBase params bp (speedRPM pt) <= vLim params ->
         torque pt = maxTorque r
         /\ id pt = - imax params * sin (betaStart bp)
         /\ iq pt = imax params * cos (betaStart bp)
         /\ currentAngle pt = betaStart bp * 180 / PI
         /\ currentSq pt = imax params * imax params.
Proof.
  apply (constant_torque_region DEFAULT_PARAMS); simpl; lra.
Defined.

(* ================================================================= *)
(** ** The two searches of region 2 *)

Lemma sin_cos_square (a x : R) :
  (- a * sin x) * (- a * sin x) + (a * cos x) * (a * cos x) = a * a.
Proof.
  pose proof (sin2_cos2 x) as H. unfold Rsqr in H.
  set (s := sin x) in *. set (c := cos x) in *.
  transitivity (a * a * (s * s + c * c)); [ring|]. rewrite H. ring.
Qed.

(** One step of the angle search keeps the bracket and halves its width. *)
Lemma angleSearchStep_bracket (params : MotorParams) (omega beta : R)
    (s : AngleSearch) :
  angleBracket params omega beta s ->
  angleBracket params omega beta (angleSearchStep params omega s)
  /\ high (angleSearchStep params omega s) - low (angleSearchStep params omega s)
     = (high s - low s) / 2.
Proof.
  intros (Hlo & Hlh & Hhi & Hopt & Hinf & Hfound).
  unfold angleSearchStep. set (mid := (low s + high s) / 2).
  assert (low s <= mid <= high s) as [H1 H2] by (unfold mid; lra).
  destruct (_ <=? vLim params) eqn:Hfeas.
  - apply js_le_true in Hfeas. cbn [low high optimalB foundSolution].
    split; [|unfold mid; lra].
    unfold angleBracket. cbn [low high optimalB foundSolution].
    repeat split; auto; lra.
  - apply js_le_false in Hfeas. cbn [low high optimalB foundSolution].
    split; [|unfold mid; lra].
    unfold angleBracket. cbn [low high optimalB foundSolution].
    repeat split; auto; lra.
Qed.

Lemma angleSearch_bracket (params : MotorParams) (omega beta : R) :
  forall (n : nat) (s : AngleSearch),
    angleBracket params omega beta s ->
    let s' := repeat_loop n (angleSearchStep params omega) s in
    angleBracket params omega beta s'
    /\ high s' - low s' = (high s - low s) / 2 ^ n.
Proof.
  intros n. induction n as [|n IH]; intros s Hs; cbn [repeat_loop].
  - split; [exact Hs|]. simpl. lra.
  - destruct (angleSearchStep_bracket params omega beta s Hs) as [Hs1 Hw1].
    destruct (IH _ Hs1) as [Hs' Hw']. cbn zeta in Hw'.
    split; [exact Hs'|]. rewrite Hw', Hw1. simpl.
    assert (2 ^ n <> 0) by (apply pow_nonzero; lra). field. assumption.
Qed.

(** One step of the magnitude search keeps the bracket and halves its
    width. *)
Lemma magnitudeSearchStep_bracket (params : MotorParams) (omega : R)
    (s s' : MagnitudeSearch) :
  magnitudeBracket params omega s ->
  magnitudeSearchStep params omega s = Some s' ->
  magnitudeBracket params omega s'
  /\ highI s' - lowI s' = (highI s - lowI s) / 2.
Proof.
  intros (H0 & Hlh & Hhi & Hsq & Hval & Hup) Hstep.
  unfold magnitudeSearchStep in Hstep. set (midI := (lowI s + highI s) / 2) in *.
  assert (lowI s <= midI <= highI s) as [H1 H2] by (unfold midI; lra).
  destruct (trialAngle params midI) as [beta|] eqn:Hbeta; [|discriminate].
  destruct (_ <=? vLim params) eqn:Hfeas; injection Hstep as <-.
  - apply js_le_true in Hfeas.
    split; [|cbn [lowI highI]; unfold midI; lra].
    unfold magnitudeBracket.
    cbn [lowI highI validId validIq validBeta].
    repeat split; auto; try lra. apply sin_cos_square.
  - apply js_le_false in Hfeas.
    split; [|cbn [lowI highI]; unfold midI; lra].
    unfold magnitudeBracket.
    cbn [lowI highI validId validIq validBeta].
    repeat split; auto; try lra. right. exists beta. auto.
Qed.

Lemma magnitudeSearch_bracket (params : MotorParams) (omega : R) :
  forall (n : nat) (s s' : MagnitudeSearch),
    magnitudeBracket params omega s ->
    repeat_loop_opt n (magnitudeSearchStep params omega) s = Some s' ->
    magnitudeBracket params omega s'
    /\ highI s' - lowI s' = (highI s - lowI s) / 2 ^ n.
Proof.
  intros n. induction n as [|n IH]; intros s s' Hs Hrun;
    cbn [repeat_loop_opt] in Hrun.
  - injection Hrun as <-. split; [exact Hs|]. simpl. lra.
  - destruct (magnitudeSearchStep params omega s) as [s1|] eqn:Hstep;
      [|discriminate].
    destruct (magnitudeSearchStep_bracket params omega s s1 Hs Hstep)
      as [Hs1 Hw1].
    destruct (IH _ _ Hs1 Hrun) as [Hs' Hw'].
    split; [exact Hs'|]. rewrite Hw', Hw1. simpl.
    assert (2 ^ n <> 0) by (apply pow_nonzero; lra). field. assumption.
Qed.

Lemma angleSearchInit_bracket (params : MotorParams) (omega beta : R) :
  beta <= PI / 2 ->
  angleInfeasible params omega beta ->
  angleBracket params omega beta (angleSearchInit beta).
Proof.
  intros Hb Hinf. unfold angleBracket, angleSearchInit.
  cbn [low high optimalB foundSolution].
  repeat split; auto; try lra; try discriminate.
Qed.

(** A recorded solution of the angle search satisfies the voltage limit. *)
Lemma angleSearch_solution_feasible (params : MotorParams) (omega beta : R) :
  let s := repeat_loop 20 (angleSearchStep params omega) (angleSearchInit beta) in
  foundSolution s = true ->
  getVoltageMag params omega
    (- imax params * sin (optimalB s)) (imax params * cos (optimalB s))
  <= vLim params.
Proof.
  cbn zeta.
  apply (repeat_loop_invariant (angleSearchStep params omega)
           (fun s => foundSolution s = true ->
                     getVoltageMag params omega
                       (- imax params * sin (optimalB s))
                       (imax params * cos (optimalB s))
                     <= vLim params)).
  - intros s Hs. unfold angleSearchStep.
    destruct (_ <=? vLim params) eqn:Hfeas;
      cbn [foundSolution optimalB]; [|exact Hs].
    intros _. apply js_le_true in Hfeas. exact Hfeas.
  - cbn. discriminate.
Qed.

(** The currents the magnitude search retains are zero or satisfy the voltage
    limit. *)
Lemma naturalCharacteristic_feasible (params : MotorParams) (omega : R)
    (op : OperatingPoint) :
  naturalCharacteristic params omega = Some op ->
  (currentId op = 0 /\ currentIq op = 0)
  \/ getVoltageMag params omega (currentId op) (currentIq op) <= vLim params.
Proof.
  unfold naturalCharacteristic. intros Hop.
  destruct (repeat_loop_opt 15 _ _) as [s|] eqn:Hrun; [|discriminate].
  injection Hop as <-. cbn [currentId currentIq]. revert Hrun.
  apply (repeat_loop_opt_invariant (magnitudeSearchStep params omega)
           (fun s => (validId s = 0 /\ validIq s = 0)
                     \/ getVoltageMag params omega (validId s) (validIq s)
                        <= vLim params)); [|left; split; reflexivity].
  intros s0 s1 H0 Hstep. unfold magnitudeSearchStep in Hstep.
  destruct (trialAngle params _) as [beta|]; [|discriminate].
  destruct (_ <=? vLim params) eqn:Hfeas; injection Hstep as <-;
    cbn [validId validIq]; [|exact H0].
  right. apply js_le_true in Hfeas. exact Hfeas.
Qed.

(** The voltage limit holds at every point of the result, except where the
    search fell back to zero current. *)
Theorem voltage_limit_or_zero_current (params : MotorParams) :
  exists r,
    calculateMotorCharacteristics params = Some r
    /\ forall pt,
         In pt (points r) ->
         vMagOf params pt <= vLim params \/ (id pt = 0 /\ iq pt = 0).
Proof.
  destruct (result_points_produced params) as (r & bp & Hr & Hbp & _ & Hprod).
  exists r. split; [exact Hr|]. intros pt Hin.
  destruct (Hprod pt Hin) as (op & Hop & Hpt).
  assert (vMagOf params pt
          = getVoltageMag params (omegaOf params (speedRPM pt))
              (currentId op) (currentIq op)) as Hmag.
  { unfold vMagOf. remember (speedRPM pt) as rpm eqn:Hrpm.
    clear - Hpt. subst pt. reflexivity. }
  assert (id pt = currentId op /\ iq pt = currentIq op) as [Hid Hiq]
    by (rewrite Hpt; split; reflexivity).
  rewrite Hmag, Hid, Hiq. clear Hmag Hid Hiq Hpt.
  unfold operatingPointAt in Hop.
  destruct (vMagBase params bp (speedRPM pt) <=? vLim params) eqn:Hfeas.
  - apply js_le_true in Hfeas. injection Hop as <-. left. exact Hfeas.
  - destruct (enableFluxWeakening params).
    + injection Hop as <-. unfold fluxWeakening.
      pose proof (angleSearch_solution_feasible params
                    (omegaOf params (speedRPM pt)) (betaStart bp)) as Hsol.
      cbn zeta in Hsol.
      destruct (foundSolution _); [left; apply Hsol; reflexivity|].
      right. split; reflexivity.
    + destruct (naturalCharacteristic_feasible params _ op Hop); auto.
Qed.

(** The current limit: with a non-negative [imax] no point of the result has
    a current magnitude above [imax]. *)
Theorem current_limit_respected (params : MotorParams) :
  0 <= imax params ->
  exists r,
    calculateMotorCharacteristics params = Some r
    /\ forall pt,
         In pt (points r) -> currentSq pt <= imax params * imax params.
Proof.
  intros Hi.
  destruct (result_points_produced params) as (r & bp & Hr & Hbp & _ & Hprod).
  exists r. split; [exact Hr|]. intros pt Hin.
  destruct (Hprod pt Hin) as (op & Hop & Hpt).
  assert (currentSq pt
          = currentId op * currentId op + currentIq op * currentIq op) as ->
    by (rewrite Hpt; reflexivity).
  clear Hpt. unfold operatingPointAt in Hop.
  destruct (vMagBase params bp (speedRPM pt) <=? vLim params).
  - injection Hop as <-. cbn [currentId currentIq].
    rewrite sin_cos_square. lra.
  - destruct (enableFluxWeakening params).
    + injection Hop as <-. unfold fluxWeakening.
      destruct (foundSolution _); cbn [currentId currentIq].
      * rewrite sin_cos_square. lra.
      * nra.
    + unfold naturalCharacteristic in Hop.
      destruct (repeat_loop_opt 15 _ _) as [s|] eqn:Hrun; [|discriminate].
      injection Hop as <-. cbn [currentId currentIq].
      apply magnitudeSearch_bracket in Hrun.
      * destruct Hrun as [(H0 & Hlh & Hhi & Hsq & _) _]. rewrite Hsq. nra.
      * unfold magnitudeBracket. cbn [lowI highI validId validIq].
        repeat split; auto; lra.
Qed.

Lemma current_limit_respected_witness :
  exists r,
    calculateMotorCharacteristics DEFAULT_PARAMS = Some r
    /\ forall pt,
         In pt (points r) ->
         currentSq pt <= imax DEFAULT_PARAMS * imax DEFAULT_PARAMS.
Proof.
  apply (current_limit_respected DEFAULT_PARAMS). simpl. lra.
Defined.

(** The outcome of the angle search started at an angle that violates the
    voltage limit: no solution and zero current, or a feasible angle with an
    infeasible one right below it. *)
Lemma fluxWeakening_cases (params : MotorParams) (omega beta0 : R) :
  beta0 <= PI / 2 ->
  angleInfeasible params omega beta0 ->
  fluxWeakening params omega beta0
  = {| currentId := 0; currentIq := 0; currentBeta := beta0 |}
  \/ exists beta lo,
       fluxWeakening params omega beta0
       = {| currentId := - imax params * sin beta;
            currentIq := imax params * cos beta;
            currentBeta := beta |}
       /\ beta0 <= lo /\ lo < beta /\ beta <= PI / 2
       /\ beta - lo = (PI / 2 - beta0) / 2 ^ 20
       /\ getVoltageMag params omega
            (- imax params * sin beta) (imax params * cos beta)
          <= vLim params
       /\ angleInfeasible params omega lo.
Proof.
  intros Hrange Hbase.
  pose proof (angleSearch_bracket params omega beta0 20 (angleSearchInit beta0)
                (angleSearchInit_bracket params omega beta0 Hrange Hbase))
    as Hbracket.
  cbn zeta in Hbracket. unfold fluxWeakening.
  remember (repeat_loop 20 (angleSearchStep params omega)
              (angleSearchInit beta0)) as s eqn:Hs.
  clear Hs.
  destruct Hbracket as [(Hlo & Hlh & Hhi & Hopt & Hinf & Hfound) Hwidth].
  cbn [angleSearchInit low high] in Hwidth.
  destruct (foundSolution s); [right|left; reflexivity].
  specialize (Hfound eq_refl). exists (high s), (low s). rewrite Hopt.
  assert (low s < high s) as Hlt.
  { destruct (Rle_lt_or_eq_dec _ _ Hlh) as [Hlt|Heq]; [exact Hlt|].
    unfold angleInfeasible in Hinf. rewrite Heq in Hinf. lra. }
  repeat split; assumption.
Qed.

(** Precision of the flux weakening search.  With flux weakening enabled, at a
    point where the base operating point exceeds the voltage limit, either the
    search found no angle and the currents are zero at the base angle, or the
    currents have magnitude [imax] at an angle [beta] between the base angle
    and 90 degrees that satisfies the voltage limit, and an angle [lo] that
    violates it lies below [beta] at a distance of the initial bracket divided
    by [2 ^ 20]. *)
Theorem flux_weakening_angle_bracket (params : MotorParams) :
  enableFluxWeakening params = true ->
  exists r bp,
    calculateMotorCharacteristics params = Some r
    /\ baseOperatingPoint params = Some bp
    /\ forall pt,
         In pt (points r) ->
         vLim params < vMagBase params bp (speedRPM pt) ->
         (id pt = 0 /\ iq pt = 0
          /\ currentAngle pt = betaStart bp * 180 / PI)
         \/ (exists beta lo,
               id pt = - imax params * sin beta
               /\ iq pt = imax params * cos beta
               /\ currentAngle pt = beta * 180 / PI
               /\ betaStart bp <= lo /\ lo < beta /\ beta <= PI / 2
               /\ beta - lo = (PI / 2 - betaStart bp) / 2 ^ 20
               /\ vMagOf params pt <= vLim params
               /\ angleInfeasible params (omegaOf params (speedRPM pt)) lo).
Proof.
  intros Hfw.
  destruct (result_points_produced params) as (r & bp & Hr & Hbp & _ & Hprod).
  exists r, bp. split; [exact Hr|]. split; [exact Hbp|].
  intros pt Hin Hbase. destruct (Hprod pt Hin) as (op & Hop & Hpt).
  unfold operatingPointAt in Hop.
  pose proof Hbase as Htest. apply js_le_false in Htest.
  rewrite Htest, Hfw in Hop. injection Hop as <-.
  destruct (betaStart_range params bp Hbp) as [_ Hrange].
  destruct (fluxWeakening_cases params (omegaOf params (speedRPM pt))
              (betaStart bp) Hrange Hbase)
    as [Hnone|(beta & lo & Hsome & Hlo & Hlt & Hhi & Hwidth & Hfeas & Hinf)].
  - left. rewrite Hpt, Hnone. repeat split; reflexivity.
  - right. exists beta, lo.
    assert (id pt = - imax params * sin beta
            /\ iq pt = imax params * cos beta
            /\ currentAngle pt = beta * 180 / PI) as (Hid & Hiq & Hang)
      by (rewrite Hpt, Hsome; repeat split; reflexivity).
    unfold vMagOf. rewrite Hid, Hiq, Hang.
    repeat split; assumption.
Qed.

Lemma flux_weakening_angle_bracket_witness :
  let params := stalledParams in
  exists r bp,
    calculateMotorCharacteristics params = Some r
    /\ baseOperatingPoint params = Some bp
    /\ forall pt,
         In pt (points r) ->
         vLim params < vMagBase params bp (speedRPM pt) ->
         (id pt = 0 /\ iq pt = 0
          /\ currentAngle pt = betaStart bp * 180 / PI)
         \/ (exists beta lo,
               id pt = - imax params * sin beta
               /\ iq pt = imax params * cos beta
               /\ currentAngle pt = beta * 180 / PI
               /\ betaStart bp <= lo /\ lo < beta /\ beta <= PI / 2
               /\ beta - lo = (PI / 2 - betaStart bp) / 2 ^ 20
               /\ vMagOf params pt <= vLim params
               /\ angleInfeasible params (omegaOf params (speedRPM pt)) lo).
Proof.
  apply (flux_weakening_angle_bracket stalledParams). reflexivity.
Defined.

(** Precision of the magnitude search.  With flux weakening disabled and a
    non-negative [imax], at a point where the base operating point exceeds the
    voltage limit the currents have a magnitude [lo] between 0 and [imax];
    they satisfy the voltage limit unless [lo] is 0; and the magnitude
    [imax / 2 ^ 15] above [lo] is [imax] itself or a magnitude whose trial
    violated the limit. *)
Theorem natural_characteristic_bracket (params : MotorParams) :
  enableFluxWeakening params = false ->
  0 <= imax params ->
  exists r bp,
    calculateMotorCharacteristics params = Some r
    /\ baseOperatingPoint params = Some bp
    /\ forall pt,
         In pt (points r) ->
         vLim params < vMagBase params bp (speedRPM pt) ->
         exists lo,
           0 <= lo
           /\ currentSq pt = lo * lo
           /\ (lo = 0 \/ vMagOf params pt <= vLim params)
           /\ let hi := lo + imax params / 2 ^ 15 in
              hi <= imax params
              /\ (hi = imax params
                  \/ exists beta,
                       trialAngle params hi = Some beta
                       /\ vLim params
                          < getVoltageMag params
                              (omegaOf params (speedRPM pt))
                              (- hi * sin beta) (hi * cos beta)).
Proof.
  intros Hfw Hi.
  destruct (result_points_produced params) as (r & bp & Hr & Hbp & _ & Hprod).
  exists r, bp. split; [exact Hr|]. split; [exact Hbp|].
  intros pt Hin Hbase. destruct (Hprod pt Hin) as (op & Hop & Hpt).
  unfold operatingPointAt in Hop.
  apply js_le_false in Hbase. rewrite Hbase, Hfw in Hop.
  set (omega := omegaOf params (speedRPM pt)) in *.
  unfold naturalCharacteristic in Hop.
  destruct (repeat_loop_opt 15 _ _) as [s|] eqn:Hrun; [|discriminate].
  injection Hop as <-.
  apply magnitudeSearch_bracket in Hrun.
  2:{ unfold magnitudeBracket. cbn [lowI highI validId validIq].
      repeat split; auto; lra. }
  destruct Hrun as [(H0 & Hlh & Hhi & Hsq & Hval & Hup) Hwidth].
  cbn [lowI highI] in Hwidth.
  assert (highI s = lowI s + imax params / 2 ^ 15) as Hhigh by lra.
  assert (currentSq pt = validId s * validId s + validIq s * validIq s
          /\ vMagOf params pt
             = getVoltageMag params omega (validId s) (validIq s))
    as [Hcur Hmag].
  { unfold vMagOf, currentSq. fold omega.
    remember (speedRPM pt) as rpm eqn:Hrpm. clear - Hpt. subst pt.
    split; reflexivity. }
  exists (lowI s). rewrite Hcur, Hmag, <- Hhigh.
  repeat split; assumption.
Qed.

Lemma natural_characteristic_bracket_witness :
  let params := DEFAULT_PARAMS in
  exists r bp,
    calculateMotorCharacteristics params = Some r
    /\ baseOperatingPoint params = Some bp
    /\ forall pt,
         In pt (points r) ->
         vLim params < vMagBase params bp (speedRPM pt) ->
         exists lo,
           0 <= lo
           /\ currentSq pt = lo * lo
           /\ (lo = 0 \/ vMagOf params pt <= vLim params)
           /\ let hi := lo + imax params / 2 ^ 15 in
              hi <= imax params
              /\ (hi = imax params
                  \/ exists beta,
                       trialAngle params hi = Some beta
                       /\ vLim params
                          < getVoltageMag params
                              (omegaOf params (speedRPM pt))
                              (- hi * sin beta) (hi * cos beta)).
Proof.
  apply (natural_characteristic_bracket DEFAULT_PARAMS);
    [reflexivity|simpl; lra].
Defined.

(* ================================================================= *)
(** ** Equal inductances: the two strategies coincide *)

(** Without saliency the torque is proportional to [cos] of the angle. *)
Lemma getTorque_no_saliency (params : MotorParams) (i_mag rad : R) :
  ld params = lq params ->
  getTorque params i_mag rad
  = 1.5 * p params * (psif params * i_mag) * cos rad.
Proof. intros Hl. unfold getTorque. rewrite Hl. ring. Qed.

Lemma no_saliency_torque_le (c x : R) : 0 <= c -> c * cos x <= c.
Proof. intros Hc. pose proof (COS_bound x). nra. Qed.

Lemma zero_degrees : 0 * PI / 180 = 0.
Proof. unfold Rdiv. ring. Qed.

(** Without saliency the MTPA scan settles on angle 0. *)
Lemma baseOperatingPoint_no_saliency (params : MotorParams) :
  ld params = lq params ->
  0 <= p params -> 0 <= psif params -> 0 <= imax params ->
  baseOperatingPoint params
  = Some {| betaStart := 0;
            maxT_static := getTorque params (imax params) 0 |}.
Proof.
  intros Hl Hp Hpsi Hi.
  destruct (controlStrategy params) eqn:Hcs;
    [|unfold baseOperatingPoint; rewrite Hcs; reflexivity].
  destruct (baseOperatingPoint_total params) as [bp Hbp]. rewrite Hbp.
  unfold baseOperatingPoint in Hbp. rewrite Hcs in Hbp.
  set (c := 1.5 * p params * (psif params * imax params)).
  assert (0 <= c) as Hc.
  { unfold c. apply Rmult_le_pos; [|apply Rmult_le_pos; assumption]. lra. }
  assert (forall rad, getTorque params (imax params) rad = c * cos rad) as HT
    by (intros rad; apply getTorque_no_saliency, Hl).
  apply (for_loop_invariant (mtpaScan params) 90 0.5
           (fun b s => betaStart s = 0
                       /\ ((b = 0 /\ maxT_static s = 0)
                           \/ maxT_static s = c))) in Hbp.
  - destruct Hbp as (b' & Hexit & Hbeta & [[Hb0 _]|Hm]); [lra|].
    destruct bp as [beta maxT]. cbn in Hbeta, Hm. subst.
    rewrite HT, cos_0. do 2 f_equal. ring.
  - intros b s (Hbeta & Hm) Hle. unfold mtpaScan. rewrite HT.
    destruct (c * cos (b * PI / 180) >? maxT_static s) eqn:Hgt.
    + apply js_gt_true in Hgt. cbn [betaStart maxT_static].
      pose proof (no_saliency_torque_le c (b * PI / 180) Hc) as Hbound.
      destruct Hm as [[-> Hm]|Hm]; [|lra].
      rewrite zero_degrees, cos_0. split; [reflexivity|right; ring].
    + apply js_gt_false in Hgt. split; [exact Hbeta|].
      destruct Hm as [[-> Hm]|Hm]; [|right; exact Hm].
      rewrite zero_degrees, cos_0 in Hgt. right. lra.
  - cbn. split; [reflexivity|left; split; reflexivity].
Qed.

(** Without saliency the trial angle of a non-negative magnitude is 0, under
    either strategy. *)
Lemma trialAngle_no_saliency (params : MotorParams) (midI : R) :
  ld params = lq params ->
  0 <= p params -> 0 <= psif params -> 0 <= midI ->
  trialAngle params midI = Some 0.
Proof.
  intros Hl Hp Hpsi Hi.
  destruct (trialAngle_total params midI) as [beta Hbeta]. rewrite Hbeta.
  unfold trialAngle in Hbeta.
  destruct (controlStrategy params); [|symmetry; exact Hbeta].
  set (c := 1.5 * p params * (psif params * midI)).
  assert (0 <= c) as Hc.
  { unfold c. apply Rmult_le_pos; [|apply Rmult_le_pos; assumption]. lra. }
  assert (forall b s,
             localScan params midI b s
             = if c * cos (b * PI / 180) >? maxT_local s
               then {| maxT_local := c * cos (b * PI / 180);
                       tBeta := b * PI / 180 |}
               else s) as Hscan.
  { intros b s. unfold localScan. rewrite Hl.
    replace (1.5 * p params
             * (psif params * (midI * cos (b * PI / 180))
                + (lq params - lq params) * (- midI * sin (b * PI / 180))
                  * (midI * cos (b * PI / 180))))
      with (c * cos (b * PI / 180)) by (unfold c; ring).
    reflexivity. }
  destruct (for_loop coarseScanFuel 0 90 5 _ _) as [coarse|] eqn:Hcoarse;
    [|discriminate].
  apply (for_loop_invariant (localScan params midI) 90 5
           (fun b s => tBeta s = 0
                       /\ ((b = 0 /\ maxT_local s = -1e9)
                           \/ maxT_local s = c))) in Hcoarse.
  - destruct Hcoarse as (b' & Hexit & Hcb & [[Hb0 _]|Hcm]); [lra|].
    destruct (for_loop fineScanFuel _ _ 1 _ coarse) as [fine|] eqn:Hfine;
      [|discriminate].
    injection Hbeta as <-. f_equal.
    apply (for_loop_invariant (localScan params midI) _ 1
             (fun _ s => tBeta s = 0 /\ maxT_local s = c)) in Hfine.
    + destruct Hfine as (_ & _ & Hfb & _). exact Hfb.
    + intros b s [Hb Hm] _. rewrite Hscan.
      pose proof (no_saliency_torque_le c (b * PI / 180) Hc) as Hbound.
      destruct (_ >? _) eqn:Hgt; [|auto].
      apply js_gt_true in Hgt. lra.
    + auto.
  - intros b s (Hb & Hm) Hle. rewrite Hscan.
    pose proof (no_saliency_torque_le c (b * PI / 180) Hc) as Hbound.
    destruct (c * cos (b * PI / 180) >? maxT_local s) eqn:Hgt.
    + apply js_gt_true in Hgt. cbn [tBeta maxT_local].
      destruct Hm as [[-> Hm]|Hm]; [|lra].
      rewrite zero_degrees, cos_0. split; [reflexivity|right; ring].
    + apply js_gt_false in Hgt. split; [exact Hb|].
      destruct Hm as [[-> Hm]|Hm]; [|right; exact Hm].
      rewrite zero_degrees, cos_0, Hm in Hgt. lra.
  - cbn. split; [reflexivity|left; split; reflexivity].
Qed.

Lemma handleStrategyChange_same (params : MotorParams) :
  handleStrategyChange params (controlStrategy params) = params.
Proof. destruct params. reflexivity. Qed.

(** What does not read the strategy is the same under both. *)
Lemma strategy_not_read (params : MotorParams) (s1 s2 : ControlStrategy) :
  let pa := handleStrategyChange params s1 in
  let pb := handleStrategyChange params s2 in
  getVoltageMag pa = getVoltageMag pb
  /\ vLim pa = vLim pb
  /\ omegaOf pa = omegaOf pb
  /\ simulationPoint pa = simulationPoint pb
  /\ recordBaseSpeed pa = recordBaseSpeed pb
  /\ angleSearchStep pa = angleSearchStep pb.
Proof. cbn zeta. repeat split; reflexivity. Qed.

Lemma fluxWeakening_strategy (params : MotorParams) (s1 s2 : ControlStrategy)
    (omega beta : R) :
  fluxWeakening (handleStrategyChange params s1) omega beta
  = fluxWeakening (handleStrategyChange params s2) omega beta.
Proof.
  destruct (strategy_not_read params s1 s2) as (_ & _ & _ & _ & _ & Hstep).
  unfold fluxWeakening. rewrite Hstep. reflexivity.
Qed.

(** Without saliency the magnitude search does not depend on the strategy. *)
Lemma magnitudeSearch_no_saliency (params : MotorParams)
    (s1 s2 : ControlStrategy) (omega : R) :
  ld params = lq params ->
  0 <= p params -> 0 <= psif params ->
  forall (n : nat) (s : MagnitudeSearch),
    0 <= lowI s -> 0 <= highI s ->
    repeat_loop_opt n
      (magnitudeSearchStep (handleStrategyChange params s1) omega) s
    = repeat_loop_opt n
        (magnitudeSearchStep (handleStrategyChange params s2) omega) s.
Proof.
  intros Hl Hp Hpsi n.
  destruct (strategy_not_read params s1 s2) as (Hmag & Hlim & _).
  induction n as [|n IH]; intros s Hlo Hhi; [reflexivity|].
  cbn [repeat_loop_opt].
  assert (0 <= (lowI s + highI s) / 2) as Hmid by lra.
  assert (magnitudeSearchStep (handleStrategyChange params s1) omega s
          = magnitudeSearchStep (handleStrategyChange params s2) omega s)
    as Hstep.
  { unfold magnitudeSearchStep.
    rewrite (trialAngle_no_saliency (handleStrategyChange params s1)),
            (trialAngle_no_saliency (handleStrategyChange params s2))
      by assumption.
    rewrite Hmag, Hlim. reflexivity. }
  rewrite Hstep.
  destruct (magnitudeSearchStep (handleStrategyChange params s2) omega s)
    as [s'|] eqn:Hs'; [|reflexivity].
  unfold magnitudeSearchStep in Hs'.
  destruct (trialAngle _ _); [|discriminate].
  apply IH; destruct (_ <=? _); injection Hs' as <-; cbn [lowI highI]; lra.
Qed.

Lemma naturalCharacteristic_no_saliency (params : MotorParams)
    (s1 s2 : ControlStrategy) (omega : R) :
  ld params = lq params ->
  0 <= p params -> 0 <= psif params -> 0 <= imax params ->
  naturalCharacteristic (handleStrategyChange params s1) omega
  = naturalCharacteristic (handleStrategyChange params s2) omega.
Proof.
  intros Hl Hp Hpsi Hi. unfold naturalCharacteristic.
  change (imax (handleStrategyChange params s1)) with (imax params).
  change (imax (handleStrategyChange params s2)) with (imax params).
  rewrite (magnitudeSearch_no_saliency params s1 s2 omega Hl Hp Hpsi 15);
    [reflexivity| |]; cbn [lowI highI]; lra.
Qed.

Lemma sweepBody_no_saliency (params : MotorParams) (s1 s2 : ControlStrategy)
    (bp : BasePoint) (rpm : R) (st : SweepState) :
  ld params = lq params ->
  0 <= p params -> 0 <= psif params -> 0 <= imax params ->
  sweepBody (handleStrategyChange params s1) bp rpm st
  = sweepBody (handleStrategyChange params s2) bp rpm st.
Proof.
  intros Hl Hp Hpsi Hi.
  destruct (strategy_not_read params s1 s2)
    as (Hmag & Hlim & Hom & Hpt & Hrec & _).
  unfold sweepBody.
  rewrite (naturalCharacteristic_no_saliency params s1 s2) by assumption.
  rewrite (fluxWeakening_strategy params s1 s2).
  rewrite Hmag, Hlim, Hom, Hpt, Hrec. reflexivity.
Qed.

Lemma sweep_no_saliency (params : MotorParams) (s1 s2 : ControlStrategy)
    (bp : BasePoint) :
  ld params = lq params ->
  0 <= p params -> 0 <= psif params -> 0 <= imax params ->
  forall (fuel : nat) (rpm : R) (st : SweepState),
    sweep fuel (handleStrategyChange params s1) bp rpm st
    = sweep fuel (handleStrategyChange params s2) bp rpm st.
Proof.
  intros Hl Hp Hpsi Hi fuel.
  induction fuel as [|fuel IH]; intros rpm st; [reflexivity|].
  rewrite !sweep_unfold.
  rewrite (sweepBody_no_saliency params s1 s2) by assumption.
  change (maxSpeed (handleStrategyChange params s1))
    with (maxSpeed (handleStrategyChange params s2)).
  destruct (rpm <=? _); [|reflexivity].
  destruct (sweepBody _ _ _ _) as [[st'|st']|]; try reflexivity.
  apply IH.
Qed.

(** For a machine with equal inductances (and pole pairs, flux linkage and
    current limit not negative) the control strategy does not matter: MTPA
    and Id=0 return the same result. *)
Theorem strategies_coincide_without_saliency (params : MotorParams)
    (s1 s2 : ControlStrategy) :
  ld params = lq params ->
  0 <= p params -> 0 <= psif params -> 0 <= imax params ->
  exists r,
    calculateMotorCharacteristics (handleStrategyChange params s1) = Some r
    /\ calculateMotorCharacteristics (handleStrategyChange params s2) = Some r.
Proof.
  intros Hl Hp Hpsi Hi.
  destruct (calculateMotorCharacteristics_total
              (handleStrategyChange params s2)) as [r Hr].
  exists r. split; [|exact Hr]. rewrite <- Hr.
  unfold calculateMotorCharacteristics.
  rewrite (baseOperatingPoint_no_saliency (handleStrategyChange params s1)),
          (baseOperatingPoint_no_saliency (handleStrategyChange params s2))
    by assumption.
  rewrite (sweep_no_saliency params s1 s2) by assumption.
  reflexivity.
Qed.

Lemma strategies_coincide_without_saliency_witness :
  let params := stalledParams in
  exists r,
    calculateMotorCharacteristics (handleStrategyChange params MTPA) = Some r
    /\ calculateMotorCharacteristics (handleStrategyChange params IdZero)
       = Some r.
Proof.
  apply (strategies_coincide_without_saliency stalledParams MTPA IdZero);
    simpl; lra.
Defined.

(* ================================================================= *)
(** ** The parameter form and the sweep *)

(** Selecting the surface-magnet type copies [ld] into [lq]; the synchronous
    inductance field sets both.  After either, with pole pairs, flux linkage
    and current limit not negative, the strategy buttons do not change the
    result. *)
Theorem surface_magnet_strategy_irrelevant (params : MotorParams)
    (numValue : R) (s1 s2 : ControlStrategy) :
  0 <= p params -> 0 <= psif params -> 0 <= imax params ->
  let typed := handleTypeChange params SPMSM in
  let tuned := handleLsChange params numValue in
  (lq typed = ld params /\ ld typed = ld params /\ motorType typed = SPMSM)
  /\ (lq tuned = numValue /\ ld tuned = numValue)
  /\ (exists r,
        calculateMotorCharacteristics (handleStrategyChange typed s1) = Some r
        /\ calculateMotorCharacteristics (handleStrategyChange typed s2)
           = Some r)
  /\ (exists r,
        calculateMotorCharacteristics (handleStrategyChange tuned s1) = Some r
        /\ calculateMotorCharacteristics (handleStrategyChange tuned s2)
           = Some r).
Proof.
  intros Hp Hpsi Hi typed tuned.
  split; [repeat split|]. split; [repeat split|]. split.
  - apply strategies_coincide_without_saliency; auto.
  - apply strategies_coincide_without_saliency; auto.
Qed.

Lemma surface_magnet_strategy_irrelevant_witness :
  let typed := handleTypeChange DEFAULT_PARAMS SPMSM in
  let tuned := handleLsChange DEFAULT_PARAMS 0.00003 in
  (lq typed = ld DEFAULT_PARAMS /\ ld typed = ld DEFAULT_PARAMS
   /\ motorType typed = SPMSM)
  /\ (lq tuned = 0.00003 /\ ld tuned = 0.00003)
  /\ (exists r,
        calculateMotorCharacteristics (handleStrategyChange typed MTPA)
        = Some r
        /\ calculateMotorCharacteristics (handleStrategyChange typed IdZero)
           = Some r)
  /\ (exists r,
        calculateMotorCharacteristics (handleStrategyChange tuned MTPA)
        = Some r
        /\ calculateMotorCharacteristics (handleStrategyChange tuned IdZero)
           = Some r).
Proof.
  apply (surface_magnet_strategy_irrelevant DEFAULT_PARAMS 0.00003 MTPA IdZero);
    simpl; lra.
Defined.

(* ================================================================= *)
(** ** The estimate and the sweep *)

Lemma Math_ceil_integer (x : R) : exists z : Z, Math_ceil x = IZR z.
Proof.
  exists (- Int_part (- x))%Z. unfold Math_ceil, Math_floor.
  rewrite opp_IZR. reflexivity.
Qed.

(** Rounding a positive speed up gives a positive multiple of 100. *)
Lemma round_up_100_multiple (x : R) :
  0 < x -> exists k : Z, (1 <= k)%Z /\ Math_ceil (x / 100) * 100 = 100 * IZR k.
Proof.
  intros Hx. destruct (Math_ceil_integer (x / 100)) as [k Hk].
  exists k. rewrite Hk. split; [|ring].
  pose proof (Math_ceil_bounds (x / 100)) as [Hlo _]. rewrite Hk in Hlo.
  assert (IZR 0 < IZR k) as H by lra. apply lt_IZR in H. lia.
Qed.

(** The speed in RPM that the estimate rounds up. *)
Lemma estimate_unrounded_pos (v flux pp : R) :
  0 < v -> 0 < flux -> 0 < pp -> 0 < (v / flux * 60) / (2 * PI * pp).
Proof.
  intros Hv Hf Hp. pose proof PI_RGT_0.
  apply Rdiv_lt_0_compat; [|nra].
  apply Rmult_lt_0_compat; [|lra]. apply Rdiv_lt_0_compat; assumption.
Qed.

(** The estimate is a positive multiple of 100 RPM. *)
Lemma estimate_multiple_of_100 (params : MotorParams) :
  0 < vdc params -> 0 < voltageUtilization params ->
  0 < psif params -> 0 < p params ->
  exists k : Z,
    (1 <= k)%Z /\ calculateTheoreticalMaxSpeed params = 100 * IZR k.
Proof.
  intros Hv Hu Hpsi Hp. pose proof (vLim_pos params Hv Hu) as Hlim.
  unfold calculateTheoreticalMaxSpeed.
  destruct (enableFluxWeakening params); cbn [negb].
  - destruct (_ >=? _); [exists 200%Z; split; [lia|lra]|].
    destruct (_ <? 1e-9) eqn:Hres; [exists 200%Z; split; [lia|lra]|].
    apply js_lt_false in Hres.
    apply round_up_100_multiple, estimate_unrounded_pos; lra.
  - apply round_up_100_multiple, estimate_unrounded_pos; assumption.
Qed.

Lemma sweptSpeed_le_inv (params : MotorParams) (i j : nat) :
  sweptSpeed params i <= sweptSpeed params j -> (i <= j)%nat.
Proof.
  intros H. destruct (Nat.le_gt_cases i j) as [Hle|Hgt]; [exact Hle|].
  pose proof (sweptSpeed_lt params j i Hgt). lra.
Qed.

(** A ceiling that is a positive multiple of 100 lies on the grid of the
    sweep, at most 100 steps up. *)
Lemma multiple_of_100_on_grid (params : MotorParams) (k : Z) :
  (1 <= k)%Z ->
  maxSpeed params = 100 * IZR k ->
  stepRPM params = Rmax 10 (IZR k)
  /\ exists j, (j <= 100)%nat /\ sweptSpeed params j = maxSpeed params.
Proof.
  intros Hk Hmax.
  assert (stepRPM params = Rmax 10 (IZR k)) as Hstep.
  { unfold stepRPM. rewrite Hmax.
    replace (100 * IZR k / 100) with (IZR k) by lra.
    rewrite Math_ceil_IZR. reflexivity. }
  split; [exact Hstep|]. unfold sweptSpeed. rewrite Hstep, Hmax.
  destruct (Z_lt_le_dec k 10) as [Hsmall|Hbig].
  - exists (Z.to_nat (10 * k)). split; [lia|].
    rewrite Rmax_left by (apply IZR_lt in Hsmall; lra).
    rewrite INR_IZR_INZ, Z2Nat.id by lia. rewrite mult_IZR. lra.
  - exists 100%nat. split; [lia|].
    rewrite Rmax_right by (apply IZR_le in Hbig; lra).
    rewrite (INR_IZR_INZ 100). simpl. lra.
Qed.

(** The "Auto" button.  For a record with positive bus voltage, utilisation,
    flux linkage and pole pairs, the ceiling it fills in is a positive multiple
    of 100 RPM, and the sweep up to that ceiling ends exactly on it: the last
    point of the result is at the ceiling, unless the early termination rule
    fired on the last point. *)
Theorem auto_ceiling_is_reached (params : MotorParams) :
  0 < vdc params -> 0 < voltageUtilization params ->
  0 < psif params -> 0 < p params ->
  let auto := handleAutoMaxSpeed params in
  (exists k : Z,
      (1 <= k)%Z /\ maxSpeed auto = 100 * IZR k
      /\ stepRPM auto = Rmax 10 (IZR k))
  /\ exists r l pt,
       calculateMotorCharacteristics auto = Some r
       /\ points r = l ++ [pt]
       /\ ((100 < speedRPM pt /\ torque pt < 0.01)
           \/ speedRPM pt = maxSpeed auto).
Proof.
  intros Hv Hu Hpsi Hp auto.
  destruct (estimate_multiple_of_100 params Hv Hu Hpsi Hp) as (k & Hk & Hest).
  assert (maxSpeed auto = 100 * IZR k) as Hmax by exact Hest.
  destruct (multiple_of_100_on_grid auto k Hk Hmax) as (Hstep & j & Hj & Hgrid).
  split; [exists k; auto|].
  destruct (characteristics_facts auto)
    as (r & bp & n & found & Hr & _ & Hfacts & Hn & Hexit).
  destruct Hfacts as [Hspeeds _ Hrange _ _ _].
  rewrite Forall_forall in Hrange.
  assert (0 <= maxSpeed auto) as Hpos.
  { rewrite Hmax. apply IZR_le in Hk. lra. }
  specialize (Hn Hpos).
  pose proof (points_length auto n (points r) Hspeeds) as Hlen.
  destruct (points r) as [|a rest] eqn:Hpts; [simpl in Hlen; lia|].
  destruct (exists_last (l := a :: rest)) as (l & pt & Hlast);
    [discriminate|].
  exists r, l, pt. rewrite Hpts. split; [exact Hr|]. split; [exact Hlast|].
  unfold sweepExit in Hexit. rewrite Hpts, Hlast in Hexit.
  destruct Hexit as [(l' & pt' & Heq & Hcol)|[Hbeyond _]].
  - apply app_inj_tail in Heq. destruct Heq as [_ <-]. left. exact Hcol.
  - right. rewrite Hlast in Hspeeds, Hlen, Hrange.
    rewrite (speed_at_position auto n _ l [] pt Hspeeds eq_refl).
    rewrite length_app, Nat.add_comm in Hlen. cbn [length Nat.add] in Hlen.
    assert (In pt (l ++ [pt])) as Hin
      by (apply in_or_app; right; left; reflexivity).
    specialize (Hrange pt Hin).
    rewrite (speed_at_position auto n _ l [] pt Hspeeds eq_refl) in Hrange.
    rewrite <- Hgrid in Hrange, Hbeyond |- *.
    apply sweptSpeed_le_inv in Hrange.
    assert (j < n)%nat as Hjn.
    { destruct (Nat.le_gt_cases n j) as [Hle|Hgt]; [|exact Hgt].
      pose proof (sweptSpeed_le auto n j Hle). lra. }
    f_equal. lia.
Qed.

Lemma auto_ceiling_is_reached_witness :
  let auto := handleAutoMaxSpeed DEFAULT_PARAMS in
  (exists k : Z,
      (1 <= k)%Z /\ maxSpeed auto = 100 * IZR k
      /\ stepRPM auto = Rmax 10 (IZR k))
  /\ exists r l pt,
       calculateMotorCharacteristics auto = Some r
       /\ points r = l ++ [pt]
       /\ ((100 < speedRPM pt /\ torque pt < 0.01)
           \/ speedRPM pt = maxSpeed auto).
Proof.
  apply (auto_ceiling_is_reached DEFAULT_PARAMS); simpl; lra.
Defined.

Lemma omegaOf_nonneg (params : MotorParams) (rpm : R) :
  0 <= p params -> 0 <= rpm -> 0 <= omegaOf params rpm.
Proof.
  intros Hp Hrpm. unfold omegaOf. pose proof PI_RGT_0.
  apply Rmult_le_pos; [|exact Hp]. nra.
Qed.

(** The electrical speed at which a flux [flux] meets the voltage [v], in
    RPM, and back. *)
Lemma omegaOf_unrounded (params : MotorParams) (v flux : R) :
  0 < flux -> 0 < p params ->
  omegaOf params ((v / flux * 60) / (2 * PI * p params)) * flux = v.
Proof.
  intros Hf Hp. unfold omegaOf. pose proof PI_RGT_0. field.
  repeat split; lra.
Qed.

Lemma omegaOf_le (params : MotorParams) (rpm1 rpm2 : R) :
  0 <= p params -> rpm1 <= rpm2 ->
  omegaOf params rpm1 <= omegaOf params rpm2.
Proof.
  intros Hp Hle. unfold omegaOf. pose proof PI_RGT_0.
  apply Rmult_le_compat_r; [exact Hp|]. nra.
Qed.

Lemma omegaOf_lt (params : MotorParams) (rpm1 rpm2 : R) :
  0 < p params -> rpm1 < rpm2 ->
  omegaOf params rpm1 < omegaOf params rpm2.
Proof.
  intros Hp Hlt. unfold omegaOf. pose proof PI_RGT_0.
  apply Rmult_lt_compat_r; [exact Hp|]. nra.
Qed.

(** The estimate without flux weakening is the no-load speed of the sweep's
    own voltage model: at the estimated speed the back-EMF (the voltage at
    zero current) has reached the voltage limit, and 100 RPM or more below the
    estimate it has not. *)
Theorem no_load_estimate_meets_back_emf (params : MotorParams) :
  enableFluxWeakening params = false ->
  0 < vdc params -> 0 < voltageUtilization params ->
  0 < psif params -> 0 < p params ->
  let est := calculateTheoreticalMaxSpeed params in
  vLim params <= getVoltageMag params (omegaOf params est) 0 0
  /\ forall rpm,
       0 <= rpm <= est - 100 ->
       getVoltageMag params (omegaOf params rpm) 0 0 < vLim params.
Proof.
  intros Hfw Hv Hu Hpsi Hp est.
  pose proof (vLim_pos params Hv Hu) as Hlim.
  set (x := (vLim params / psif params * 60) / (2 * PI * p params)).
  assert (est = Math_ceil (x / 100) * 100) as Hest.
  { unfold est, calculateTheoreticalMaxSpeed. rewrite Hfw. reflexivity. }
  pose proof (round_up_100 x) as [Hlo Hhi]. rewrite <- Hest in Hlo, Hhi.
  pose proof (omegaOf_unrounded params (vLim params) (psif params) Hpsi Hp)
    as Hx. fold x in Hx.
  assert (0 < x) as Hxpos by (apply estimate_unrounded_pos; assumption).
  split.
  - rewrite getVoltageMag_no_current.
    pose proof (omegaOf_le params x est ltac:(lra) Hlo) as Hle.
    pose proof (omegaOf_nonneg params est ltac:(lra) ltac:(lra)) as Hpos.
    rewrite Rabs_right by nra. nra.
  - intros rpm [Hrpm0 Hrpm]. rewrite getVoltageMag_no_current.
    pose proof (omegaOf_lt params rpm x Hp ltac:(lra)) as Hlt.
    pose proof (omegaOf_nonneg params rpm ltac:(lra) Hrpm0) as Hpos.
    rewrite Rabs_right by nra. nra.
Qed.

Lemma no_load_estimate_meets_back_emf_witness :
  let params := DEFAULT_PARAMS in
  let est := calculateTheoreticalMaxSpeed params in
  vLim params <= getVoltageMag params (omegaOf params est) 0 0
  /\ forall rpm,
       0 <= rpm <= est - 100 ->
       getVoltageMag params (omegaOf params rpm) 0 0 < vLim params.
Proof.
  apply (no_load_estimate_meets_back_emf DEFAULT_PARAMS);
    [reflexivity|simpl; lra..].
Defined.

Lemma sqrt_sum_ge_abs (a b : R) : Rabs b <= sqrt (a * a + b * b).
Proof.
  rewrite <- sqrt_Rsqr_abs. apply sqrt_le_1.
  - apply Rle_0_sqr.
  - pose proof (Rle_0_sqr a). pose proof (Rle_0_sqr b). unfold Rsqr in *. lra.
  - pose proof (Rle_0_sqr a). unfold Rsqr in *. lra.
Qed.

(** The estimate with flux weakening, where it is not the sentinel, is a speed
    at which even the last angle of the angle search, 90 degrees, with the
    whole current [imax] against the magnet, no longer satisfies the voltage
    limit strictly; with no resistance that angle does satisfy it 100 RPM or
    more below the estimate. *)
Theorem flux_weakening_estimate_meets_limit (params : MotorParams) :
  enableFluxWeakening params = true ->
  0 < vdc params -> 0 < voltageUtilization params ->
  0 < p params -> 0 < ld params ->
  imax params < psif params / ld params ->
  1e-9 <= Rabs (psif params - ld params * imax params) ->
  let est := calculateTheoreticalMaxSpeed params in
  let vMag90 rpm :=
    getVoltageMag params (omegaOf params rpm)
      (- imax params * sin (PI / 2)) (imax params * cos (PI / 2)) in
  vLim params <= vMag90 est
  /\ (rs params = 0 ->
      forall rpm, 0 <= rpm <= est - 100 -> vMag90 rpm < vLim params).
Proof.
  intros Hfw Hv Hu Hp Hld Hich Hres est vMag90.
  pose proof (vLim_pos params Hv Hu) as Hlim.
  set (res := Rabs (psif params - ld params * imax params)) in *.
  assert (0 < res) as Hrespos by lra.
  set (x := (vLim params / res * 60) / (2 * PI * p params)).
  assert (est = Math_ceil (x / 100) * 100) as Hest.
  { unfold est, calculateTheoreticalMaxSpeed. rewrite Hfw. cbn [negb].
    apply (proj2 (js_ge_false _ _)) in Hich. rewrite Hich.
    fold res. rewrite (proj2 (js_lt_false res 1e-9)) by exact Hres.
    reflexivity. }
  pose proof (round_up_100 x) as [Hlo Hhi]. rewrite <- Hest in Hlo, Hhi.
  pose proof (omegaOf_unrounded params (vLim params) res Hrespos Hp) as Hx.
  fold x in Hx.
  assert (0 < x) as Hxpos by (apply estimate_unrounded_pos; assumption).
  assert (forall rpm,
             0 <= rpm ->
             Rabs (rs params * (imax params * 0)
                   + omegaOf params rpm
                     * (ld params * (- imax params * 1) + psif params))
             = omegaOf params rpm * res) as Hflux.
  { intros rpm Hrpm.
    replace (rs params * (imax params * 0)
             + omegaOf params rpm
               * (ld params * (- imax params * 1) + psif params))
      with (omegaOf params rpm * (psif params - ld params * imax params))
      by ring.
    rewrite Rabs_mult. fold res. f_equal. apply Rabs_right.
    apply Rle_ge, omegaOf_nonneg; lra. }
  unfold vMag90, getVoltageMag. rewrite sin_PI2, cos_PI2. split.
  - eapply Rle_trans; [|apply sqrt_sum_ge_abs].
    rewrite Hflux by lra.
    pose proof (omegaOf_le params x est ltac:(lra) Hlo). nra.
  - intros Hrs rpm [Hrpm0 Hrpm].
    match goal with
    | |- sqrt (?a * ?a + ?b * ?b) < _ =>
        replace (a * a + b * b) with (Rsqr b)
          by (unfold Rsqr; rewrite Hrs; ring);
        rewrite sqrt_Rsqr_abs
    end.
    rewrite Hflux by lra.
    pose proof (omegaOf_lt params rpm x Hp ltac:(lra)). nra.
Qed.

Lemma flux_weakening_estimate_meets_limit_witness :
  let params := stalledParams in
  let est := calculateTheoreticalMaxSpeed params in
  let vMag90 rpm :=
    getVoltageMag params (omegaOf params rpm)
      (- imax params * sin (PI / 2)) (imax params * cos (PI / 2)) in
  vLim params <= vMag90 est
  /\ (rs params = 0 ->
      forall rpm, 0 <= rpm <= est - 100 -> vMag90 rpm < vLim params).
Proof.
  apply (flux_weakening_estimate_meets_limit stalledParams);
    [reflexivity|simpl; try lra..].
  rewrite Rabs_right; lra.
Defined.

(* ================================================================= *)
(** ** The flux weakening switch *)

(** Every result has the indexed form. *)
Lemma characteristics_indexed (params : MotorParams) :
  exists r bp n,
    calculateMotorCharacteristics params = Some r
    /\ baseOperatingPoint params = Some bp
    /\ maxTorque r = maxT_static bp
    /\ IndexedRun params bp n r
    /\ baseSpeedIndexed params bp n r.
Proof.
  destruct (characteristics_facts params)
    as (r & bp & n & found & Hr & Hbp & Hfacts & _ & Hexit).
  destruct Hfacts as [Hspeeds Hprod Hrange Halive HmaxT Hbase].
  rewrite Forall_forall in Hprod, Hrange, Halive.
  pose proof (points_length params n (points r) Hspeeds) as Hlen.
  assert (forall i pt,
             nth_error (points r) i = Some pt ->
             speedRPM pt = sweptSpeed params i /\ In pt (points r)) as Hnth.
  { intros i pt Hi. pose proof (nth_error_In _ _ Hi) as Hin.
    apply nth_error_split in Hi. destruct Hi as (l1 & l2 & Hl & <-).
    split; [|exact Hin].
    apply (speed_at_position params n (points r) l1 l2 pt Hspeeds Hl). }
  exists r, bp, n. split; [exact Hr|]. split; [exact Hbp|].
  split; [exact HmaxT|]. split; [constructor|].
  - exact Hlen.
  - intros i Hi.
    destruct (nth_error (points r) i) as [pt|] eqn:Hpt.
    2:{ apply nth_error_None in Hpt. lia. }
    destruct (Hnth i pt Hpt) as [Hspeed Hin].
    exists pt. split; [reflexivity|]. split; [exact Hspeed|].
    split; [apply Hprod, Hin|]. split; [rewrite <- Hspeed; apply Hrange, Hin|].
    intros Hnext. apply Halive.
    apply nth_error_split in Hpt. destruct Hpt as (l1 & l2 & Hl & Hl1).
    rewrite Hl in Hlen |- *. rewrite length_app in Hlen. cbn in Hlen.
    destruct l2 as [|q l2]; [cbn in Hlen; lia|].
    rewrite removelast_app by discriminate.
    apply in_or_app. right. left. reflexivity.
  - unfold sweepExit in Hexit.
    destruct Hexit as [(l & pt & Hl & Hcol)|[Hbeyond _]]; [left|right; auto].
    exists pt. split; [|exact Hcol].
    rewrite Hl in Hlen |- *. rewrite length_app, Nat.add_comm in Hlen.
    cbn in Hlen. subst n. cbn [Nat.sub]. rewrite Nat.sub_0_r.
    rewrite nth_error_app2, Nat.sub_diag by lia. reflexivity.
  - destruct Hbase as [(_ & Hb & Hall)|(_ & l1 & q & l2 & Hl & H1 & Hq & Hb)].
    + left. split; [exact Hb|]. intros i Hi.
      rewrite Forall_forall in Hall.
      destruct (nth_error (points r) i) as [pt|] eqn:Hpt.
      2:{ apply nth_error_None in Hpt. lia. }
      destruct (Hnth i pt Hpt) as [<- Hin]. apply Hall, Hin.
    + right. exists (length l1).
      pose proof (speed_at_position params n _ l1 l2 q Hspeeds Hl) as Hsq.
      rewrite Hl, length_app in Hlen. cbn in Hlen.
      split; [|rewrite <- Hsq; exact Hb].
      split; [lia|]. split.
      * intros i Hi. rewrite Forall_forall in H1.
        destruct (nth_error l1 i) as [pt|] eqn:Hpt.
        2:{ apply nth_error_None in Hpt. lia. }
        assert (nth_error (points r) i = Some pt) as Hpt'
          by (rewrite Hl, nth_error_app1 by lia; exact Hpt).
        destruct (Hnth i pt Hpt') as [<- _].
        apply H1. apply nth_error_In in Hpt. exact Hpt.
      * rewrite <- Hsq. exact Hq.
Qed.

(** Where the base point is feasible the point pushed is the base point's. *)
Lemma feasible_point (params : MotorParams) (bp : BasePoint)
    (pt : SimulationPoint) :
  producedAt params bp pt ->
  baseFeasible params bp (speedRPM pt) ->
  pt = simulationPoint params (speedRPM pt)
         {| currentId := - imax params * sin (betaStart bp);
            currentIq := imax params * cos (betaStart bp);
            currentBeta := betaStart bp |}.
Proof.
  intros (op & Hop & Hpt) Hfeas. unfold operatingPointAt in Hop.
  apply (proj2 (js_le_true _ _)) in Hfeas. rewrite Hfeas in Hop.
  injection Hop as <-. exact Hpt.
Qed.

(** What does not read the flux weakening switch is the same under both of
    its positions. *)
Lemma switch_not_read (params : MotorParams) (f1 f2 : bool) :
  let pa := handleFwChange params f1 in
  let pb := handleFwChange params f2 in
  sweptSpeed pa = sweptSpeed pb
  /\ baseFeasible pa = baseFeasible pb
  /\ maxSpeed pa = maxSpeed pb
  /\ stepRPM pa = stepRPM pb
  /\ simulationPoint pa = simulationPoint pb
  /\ imax pa = imax pb
  /\ baseOperatingPoint pa = baseOperatingPoint pb.
Proof.
  cbn zeta. split; [reflexivity|]. split; [reflexivity|].
  split; [reflexivity|]. split; [reflexivity|]. split; [reflexivity|].
  split; [reflexivity|]. apply baseOperatingPoint_ext; reflexivity.
Qed.

(** If one position of the switch meets its first infeasible pass at [j], so
    does the other. *)
Lemma first_infeasible_agrees (params : MotorParams) (f1 f2 : bool)
    (bp : BasePoint) (n1 n2 j : nat) (r1 r2 : SimulationResult) :
  IndexedRun (handleFwChange params f1) bp n1 r1 ->
  IndexedRun (handleFwChange params f2) bp n2 r2 ->
  firstInfeasible (handleFwChange params f1) bp n1 j ->
  baseSpeedIndexed (handleFwChange params f2) bp n2 r2 ->
  firstInfeasible (handleFwChange params f2) bp n2 j
  /\ baseSpeed r2
     = Rmax 0 (sweptSpeed (handleFwChange params f2) j
               - stepRPM (handleFwChange params f2)).
Proof.
  destruct (switch_not_read params f1 f2)
    as (Hsp & HF & Hmax & Hstep & Hpoint & Himax & _).
  cbn zeta in *.
  set (pa := handleFwChange params f1) in *.
  set (pb := handleFwChange params f2) in *.
  intros [Hlen1 Hpt1 _] [Hlen2 Hpt2 Hexit2] (Hj1 & Hbefore1 & Hat1) Hbase2.
  rewrite Hsp, HF in Hbefore1, Hat1.
  assert (n2 <= j -> False)%nat as Hreach.
  { intros Hshort.
    destruct (Hpt1 j Hj1) as (_ & _ & _ & _ & Hrange & _).
    rewrite Hsp, Hmax in Hrange.
    destruct Hexit2 as [(pt2 & Hnth2 & Hcol)|Hbeyond].
    - destruct n2 as [|m].
      { destruct (points r2); [discriminate|simpl in Hlen2; lia]. }
      cbn [Nat.sub] in Hnth2. rewrite Nat.sub_0_r in Hnth2.
      destruct (Hpt2 m ltac:(lia)) as (q2 & Hq2 & Hs2 & Hprod2 & _).
      rewrite Hq2 in Hnth2. injection Hnth2 as ->.
      destruct (Hpt1 m ltac:(lia)) as (q1 & _ & Hs1 & Hprod1 & _ & Halive1).
      assert (baseFeasible pb bp (sweptSpeed pb m)) as Hfeas
        by (apply Hbefore1; lia).
      assert (q1 = pt2) as Heq.
      { rewrite (feasible_point pa bp q1 Hprod1)
          by (rewrite Hs1, Hsp, HF; exact Hfeas).
        rewrite (feasible_point pb bp pt2 Hprod2)
          by (rewrite Hs2; exact Hfeas).
        rewrite Hs1, Hs2, Hsp, Hpoint, Himax. reflexivity. }
      apply Halive1; [lia|]. rewrite Heq. exact Hcol.
    - pose proof (sweptSpeed_le pb n2 j Hshort). lra. }
  destruct Hbase2 as [[_ Hall]|(j2 & (Hj2 & Hbefore2 & Hat2) & Hb)].
  - exfalso. destruct (Nat.le_gt_cases n2 j) as [Hle|Hgt]; [auto|].
    apply Hat1, Hall, Hgt.
  - assert (j2 = j) as ->.
    { destruct (Nat.lt_trichotomy j2 j) as [Hlt|[Heq|Hgt]]; [|exact Heq|].
      - exfalso. apply Hat2, Hbefore1, Hlt.
      - exfalso. apply Hat1, Hbefore2, Hgt. }
    split; [|exact Hb]. repeat split; assumption.
Qed.

(** The flux weakening switch changes neither the maximum torque nor the base
    speed of the result. *)
Theorem flux_weakening_switch_keeps_base (params : MotorParams) :
  exists r1 r2,
    calculateMotorCharacteristics (handleFwChange params true) = Some r1
    /\ calculateMotorCharacteristics (handleFwChange params false) = Some r2
    /\ maxTorque r1 = maxTorque r2
    /\ baseSpeed r1 = baseSpeed r2.
Proof.
  destruct (characteristics_indexed (handleFwChange params true))
    as (r1 & bp1 & n1 & Hr1 & Hbp1 & HmaxT1 & Hrun1 & Hbase1).
  destruct (characteristics_indexed (handleFwChange params false))
    as (r2 & bp2 & n2 & Hr2 & Hbp2 & HmaxT2 & Hrun2 & Hbase2).
  destruct (switch_not_read params true false)
    as (Hsp & HF & _ & Hstep & _ & _ & Hsame).
  cbn zeta in *. rewrite Hsame, Hbp2 in Hbp1. injection Hbp1 as <-.
  exists r1, r2. split; [exact Hr1|]. split; [exact Hr2|].
  split; [congruence|].
  destruct Hbase1 as [[Hb1 Hall1]|(j1 & Hfirst1 & Hb1)].
  - destruct Hbase2 as [[Hb2 _]|(j2 & Hfirst2 & Hb2)]; [congruence|].
    exfalso.
    destruct (first_infeasible_agrees params false true bp2 n2 n1 j2 r2 r1
                Hrun2 Hrun1 Hfirst2 (or_introl (conj Hb1 Hall1)))
      as [(Hj & _ & Hat) _].
    apply Hat, Hall1, Hj.
  - destruct (first_infeasible_agrees params true false bp2 n1 n2 j1 r1 r2
                Hrun1 Hrun2 Hfirst1 Hbase2) as [_ Hb2].
    rewrite Hb1, Hb2, Hsp, Hstep. reflexivity.
Qed.
